(* ===== verification/_CoqProject ===== *)
-Q . S2P
Prelude.v
JsNumber.v
JsValue.v
JsString.v
JsMonad.v
Limiter.v
Memo.v
Iteration.v
Recursion.v
Exports.v
