(* ===== verification/Prelude.v ===== *)
(** * A verified model of Sprint-Challenge--JavaScript, src/src/challenges.js

    The repository is one JavaScript module, src/src/challenges.js, that
    exports seven functions:
    - [each] and [map] (lines 2-18): iteration helpers built on
      [Array.prototype.forEach], which call a user callback;
    - [limitFunctionCallCount] (lines 21-32): a closure factory whose
      closure keeps a counter and lets the callback run at most [n] times;
    - [cacheFunction] (lines 34-52): a closure factory whose closure keeps a
      cache object keyed by the stringified argument array;
    - [reverseStr] (lines 57-64): recursive string reversal;
    - [checkMatchingLeaves] (lines 66-77): whether all values of an object
      are strictly equal;
    - [flatten] (lines 79-83): declared with an empty body.
    The components do not call one another; they share the JavaScript
    runtime: values, the heap of objects, strict equality, string
    conversion, and the callbacks that the closures invoke.

    ** Layout of the development (in dependency order)
    - [Prelude] (this file): JavaScript strings as lists of UTF-16 code
      units, the [js] hint database and the
      generic list lemmas.
    - [JsNumber]: JavaScript Numbers other than NaN, -0 and the
      infinities as decimals [m * 10^e]; [norm] is their canonical form
      (equality by mathematical value) and [num_to_string] is
      [Number::toString] of ECMA-262 (6.1.6.1.20), both the decimal and
      the exponent forms; [digits_value] reads a decimal string back.
    - [JsValue]: the runtime data. [jsval] are the JavaScript values the
      program handles (undefined, null, booleans, numbers: integers, NaN,
      -0, the infinities and decimals, strings, Symbols by identity and
      references to heap objects); a [heap] maps addresses to
      objects (arrays with holes, ordinary objects with their property list)
      and carries the next free address. [strict_eq] is [===], numbers
      compared by [norm]; [heap_wf] is
      the well-formedness invariant of the heap (every address used is
      allocated) and [heap_extends] says that a heap only grew.
    - [JsString]: [ToString] of a value and [ToPropertyKey] of the argument
      array as the engine (V8, the engine of Node, where the module runs)
      computes them: [Array.prototype.join] with "," and V8's cycle
      detection; a Symbol element throws a [TypeError] ([None]). The
      recursion is fuelled; [to_str_enough] shows that the fuel
      [js_fuel h], one more than the number of addresses, always
      suffices on a well-formed heap and that the outcome does not change
      when the heap only grows, [fresh_array_key] that the key of a
      freshly allocated argument array is the join of its elements
      ([list_key]), and [list_key_ints_inj] that distinct lists of
      integers have distinct keys.
    - [JsMonad]: the effects. A computation of type [js L A] runs on a
      closure-local state [L] and the heap, ends normally or with an
      exception ([completion]), and records the trace of callback
      invocations: every call of a user callback is an event carrying the
      argument list. [closure L] is the interface of a function value
      with private state (its state and its call operation); [run_calls]
      applies a closure to a sequence of argument lists; [unfold_js] is
      the tactic that unfolds the monad's operations.
    - [Limiter] (Module [CallLimiter]): [limitFunctionCallCount] (lines
      21-32). The counter is the closure state, a JavaScript number:
      [counter++] on a double saturates at 2^53, which [js_incr] writes
      out. [budget_call] is the abstract contract of spec.md 4.1, a budget
      of calls left.
    - [Memo] (Module [Memoizer]): [cacheFunction] (lines 34-52). The cache
      is the closure state, an ordinary object with its own properties and
      its prototype link, so that the assignment [cache[args] = result]
      goes through the inherited [__proto__] setter when the key is
      "__proto__". The argument array is allocated on the heap, passed to
      the callback by reference and stringified again after the callback
      ran, as the code does. [memo_spec_call] is the abstract contract of
      spec.md 4.2: a finite map from keys to results.
    - [Iteration] (Module [Iter]): [each] and [map] (lines 2-18) over
      [array_forEach], which reads the length once and re-reads the array
      at every index, skipping holes, as [Array.prototype.forEach] does.
      The Section [Loop] proves the loop once against an invariant [Q] of
      the heap; [each] and [map] instantiate it.
    - [Recursion]: Module [ReverseStr], [reverseStr] (lines 57-64) on code
      units; Module [Leaves], [checkMatchingLeaves] (lines 66-77) over
      [object_values] (the order of [Object.values]: array-index keys
      ascending, then insertion order) and a fuelled loop [leaves_loop];
      Module [Flatten], [flatten] (lines 79-83).
    - [Exports] (Module [ModuleExports]): [module.exports] (lines 85-93),
      the record [exports] of the seven operations and its value
      [module_exports]; [as_callback] passes a function value as a callback,
      which is how a client composes the exports.

    The closures share one interface, the record [closure] of [JsMonad]
    (initial private state and call operation); [run_calls] runs any
    closure on a call sequence, and the Section [Simulation] of [JsMonad]
    proves once that a step-wise simulation lifts to whole call sequences:
    both refinement theorems are its instances.

    ** What the theorems show
    (PROJECT.json lists the 30 claims C1-C30 with their theorems; every
    claim is a statement about the code of src/src/challenges.js, and the
    lemmas about the runtime alone, such as the adequacy of the fuel of
    the key computation, are the library the claims are proved with)
    - limiter (C1-C7): for a limit [k] in [0, 2^53] the callback runs on
      exactly the first [k] calls and later calls return [null]; the
      closure refines the budget contract for every limit; for any limit
      [===] never meets (negative, above 2^53, fractional, infinite, NaN,
      a string, undefined) it runs on every call; every reachable counter
      lies in [0, 2^53] and below a non-negative limit with an integral
      value (an invariant proved by rule induction on [reachable]); every
      run of [k] calls reaches the exhausted state, which then absorbs
      every call (liveness, eventually always); a call whose callback
      throws still spends budget; limits that [===] relates ([2] and
      [2.0], [0] and [-0]) give the same behaviour.
    - memoizer (C8-C17): for a callback that only allocates and never
      throws, it runs at most once per key other than "__proto__" over
      any call sequence; the closure refines the finite-map contract away
      from the key "__proto__"; a hit returns the stored value without a
      call; a miss calls the callback once with the argument array and
      assigns the result; a throw leaves the cache unchanged; a Symbol
      argument makes the call throw a [TypeError] before the callback
      runs; two calls whose argument lists have the same key ([4] and
      ['4'], [] and [null], [0] and [-0]) run the callback at most once
      and return the same value; the key "__proto__" is never cached
      while the callback returns a primitive other than [null]; a callback
      that changes its argument array has its result stored under the new
      key; two different lists of integers have different keys, so both
      calls run the callback (spec scenario 3).
    - iteration (C18-C23): [each] calls the callback on the present
      elements in index order with (value, index), at most the initial
      length many times whatever the callback does, and stops at the
      first exception it throws, as [map] does; [map] returns a fresh
      array of the results with holes dropped; a non-array throws.
    - composition (C24): [map(arr, reverseStr)] through [module_exports]
      returns the array of the strings with their code units reversed,
      one [reverseStr] call per string.
    - recursion (C25-C30): [checkMatchingLeaves] is true iff at most one
      value or all values pairwise [===] (so false on two NaN),
      independent of key order; [leaves_loop] terminates with enough fuel
      and equals a [forallb]; it throws exactly on [undefined] and [null],
      and [reverseStr] exactly on non-strings; [reverseStr] is [rev] on
      code units and so breaks every surrogate pair.

    ** Findings (PROJECT.json, "findings")
    A limit that is not a reachable integer never stops the callback, a
    fractional or infinite one included; distinct argument lists that
    stringify alike share a cache entry, [0] and [-0] among them; the
    key "__proto__" is never cached; a Symbol argument throws before the
    callback runs; a mutating callback is re-run; a
    throwing callback is not cached; [reverseStr] breaks surrogate pairs;
    [checkMatchingLeaves] is false on all-NaN objects; [map] drops holes;
    [flatten] returns [undefined].

    ** Fuel and bounds
    String conversion recurses into nested arrays; V8 stops at an array
    already on its join stack, so the depth is bounded by the number of
    heap addresses and [js_fuel h = S (hnext h)] is enough
    ([to_str_enough]). The loop of [checkMatchingLeaves] gets the
    number of values as fuel, one more than the iterations it needs
    ([leaves_loop_spec]). [forEach] iterates over [seq 0 len], which is
    finite by construction. [strip_zeros] takes [log2 |m|] as fuel, a
    bound on the trailing zeros of [m] ([norm_spec]), and [pos_digits]
    gives [digits_rev] [log2 n + 1], a bound on the digits of [n]
    ([pos_digits_fuel]). Integers below [10^21] in absolute value print
    as their digits ([number_to_string_int]), which is where C17 needs
    its bound. The counter of the limiter is kept at the precision of a
    double (saturating increment at 2^53).

    ** Not modelled
    Function values, and objects with their own [toString], [valueOf],
    [Symbol.toPrimitive] or getters, are not values of the model: among
    the arguments of the memoized function they would run user code
    inside the key computation. Symbol-keyed properties are not modelled
    ([Object.values] ignores them). A finite number is the decimal that
    [Number::toString] prints for it: the model does not compute the shortest decimal of a binary double,
    and has no arithmetic on non-integers, which the code never does
    (its only arithmetic is [counter++] on an integer). The built-ins
    component is therefore "partly" modelled. Accessor properties and
    prototypes of heap objects other than the cache are the standard
    ones. A callback is always a function (calling a non-function, which
    throws a [TypeError] in JavaScript, is outside the model). Stack
    overflow of deep recursion is not modelled. *)

From stdpp Require Export base list gmap strings.
From Stdlib Require Export ZArith Lia.

Declare Scope js_scope.
Delimit Scope js_scope with js.

(** ** JavaScript strings

    A JavaScript string is a sequence of UTF-16 code units; [charAt],
    [substr] and [+] work on code units. *)

Definition jsstr := list Z.

(** An ASCII literal as a JavaScript string. *)
Definition lit (s : string) : jsstr :=
  map (fun c => Z.of_nat (Ascii.nat_of_ascii c)) (String.list_ascii_of_string s).

(** Concatenation with a separator, as [Array.prototype.join] builds it. *)
Fixpoint intercalate (sep : jsstr) (parts : list jsstr) : jsstr :=
  match parts with
  | [] => []
  | [p] => p
  | p :: rest => p ++ sep ++ intercalate sep rest
  end.

(** The hint database of the development: heap growth and well-formedness
    lemmas are declared in it where they are proved. *)
Create HintDb js discriminated.

Lemma filter_length_mono {A} (P Q : A -> Prop)
    `{!forall x, Decision (P x)} `{!forall x, Decision (Q x)} (l : list A) :
  (forall x, P x -> Q x) -> length (filter P l) <= length (filter Q l).
Proof.
  intros HPQ. induction l as [|x l IH]; [done|].
  rewrite !filter_cons. repeat case_decide; simpl; try lia. naive_solver.
Qed.

(** Pushing a fresh address on a stack removes it from the addresses not on
    the stack: the measure of the fuelled recursions on the heap. *)
Lemma filter_notin_push_lt (l stk : list nat) (r : nat) :
  r ∈ l -> r ∉ stk ->
  length (filter (fun x => x ∉ r :: stk) l) < length (filter (fun x => x ∉ stk) l).
Proof.
  intros Hr Hstk. induction l as [|x l IH]; [by apply elem_of_nil in Hr|].
  rewrite !filter_cons. apply elem_of_cons in Hr as [->|Hr].
  - rewrite decide_False by set_solver. rewrite decide_True by done. simpl.
    apply Nat.lt_succ_r, filter_length_mono. set_solver.
  - specialize (IH Hr). repeat case_decide; simpl; try set_solver; lia.
Qed.

(** The Standard Library's [map] is stdpp's [fmap] on lists. *)
Lemma list_map_fmap {A B} (f : A -> B) (l : list A) : List.map f l = f <$> l.
Proof. induction l as [|x l IH]; [done|]. simpl. by rewrite IH. Qed.

Lemma omap_id_map_Some {A} (l : list A) : omap id (map Some l) = l.
Proof. induction l as [|x l IH]; cbn; [done|]. by rewrite IH. Qed.

Lemma rev_replicate {A} n (x : A) : rev (replicate n x) = replicate n x.
Proof.
  induction n as [|n IH]; [done|]. simpl. rewrite IH.
  by rewrite <- (replicate_S_end n x).
Qed.

Lemma forallb_rev {A} (f : A -> bool) (l : list A) : forallb f (rev l) = forallb f l.
Proof.
  induction l as [|x l IH]; [done|]. simpl. rewrite forallb_app, IH. simpl.
  by destruct (f x), (forallb f l).
Qed.

(** [mapM] keeps its result when every image it used is kept. *)
Lemma mapM_Some_mono {A B} (f g : A -> option B) (l : list A) (k : list B) :
  (forall x y, x ∈ l -> f x = Some y -> g x = Some y) ->
  mapM f l = Some k -> mapM g l = Some k.
Proof.
  intros Hfg Hf. apply mapM_Some in Hf. apply mapM_Some.
  induction Hf as [|x y l k Hxy Hlk IH]; constructor.
  - apply Hfg; [set_solver | done].
  - apply IH. intros x' y' Hx'. apply Hfg. set_solver.
Qed.


(** ** Joining with a separator *)

Lemma intercalate_cons sep p rest :
  intercalate sep (p :: rest) = p ++ match rest with [] => [] | _ :: _ => sep ++ intercalate sep rest end.
Proof. destruct rest; simpl; [by rewrite app_nil_r|done]. Qed.

(** Two strings free of the unit [d], each followed by nothing or by [d]:
    the first [d] is where both end. *)
Lemma app_sep_free_eq (d : Z) (x y a b : list Z) :
  d ∉ x -> d ∉ y -> (a = [] \/ head a = Some d) -> (b = [] \/ head b = Some d) ->
  x ++ a = y ++ b -> x = y /\ a = b.
Proof.
  revert y. induction x as [|u x IH]; intros [|w y] Hx Hy Ha Hb; simpl; try done.
  - intros ->. destruct Ha as [Ha|Ha]; [done|]. simpl in Ha. injection Ha as ->.
    exfalso. apply Hy, elem_of_cons. by left.
  - intros <-. destruct Hb as [Hb|Hb]; [done|]. simpl in Hb. injection Hb as ->.
    exfalso. apply Hx, elem_of_cons. by left.
  - intros [= -> Heq]. rewrite not_elem_of_cons in Hx, Hy.
    destruct (IH y (proj2 Hx) (proj2 Hy) Ha Hb Heq) as [-> ->]. done.
Qed.

(** Joining with a one-unit separator is injective on non-empty parts
    that do not contain it. *)
Lemma intercalate_inj (d : Z) (l1 l2 : list (list Z)) :
  Forall (fun s => s <> [] /\ d ∉ s) l1 -> Forall (fun s => s <> [] /\ d ∉ s) l2 ->
  intercalate [d] l1 = intercalate [d] l2 -> l1 = l2.
Proof.
  revert l2. induction l1 as [|x l1 IH]; intros [|y l2] H1 H2; try done.
  - apply Forall_cons in H2 as [[Hy _] _]. rewrite intercalate_cons.
    intros Heq. symmetry in Heq. apply app_eq_nil in Heq as [? _]. done.
  - apply Forall_cons in H1 as [[Hx _] _]. rewrite intercalate_cons.
    intros Heq. apply app_eq_nil in Heq as [? _]. done.
  - apply Forall_cons in H1 as [[_ Hx] H1]. apply Forall_cons in H2 as [[_ Hy] H2].
    rewrite !intercalate_cons. intros Heq.
    apply (app_sep_free_eq d) in Heq as [-> Heq]; try done;
      [|destruct l1; simpl; auto|destruct l2; simpl; auto].
    destruct l1, l2; simpl in Heq; try done. injection Heq as Heq.
    f_equal. apply IH; done.
Qed.

