(* ===== verification/JsNumber.v ===== *)
(** * Numbers: their decimal form, equality by value and [Number::toString]

    A finite number of the model is a pair [(m, e)] of integers standing
    for [m * 10^e]. [norm] puts it in the form ECMA-262 uses in
    [Number::toString] (section 6.1.6.1.20): the integer [s = |m|] with
    no trailing zero, so that [k], the number of digits of [s], is as
    small as possible, and the exponent [n] with value [s * 10^(n - k)].
    Two finite numbers are the same number exactly when their normal
    forms agree, which is how [===] compares them ([JsValue.strict_eq]).
    [num_to_string] is [Number::toString] with radix 10, written after the
    steps of the standard: plain digits up to 21 digits before the point,
    a decimal point inside the digits, a ["0.000..."] prefix down to
    10^-6, and the exponent form [d.ddde+n] beyond. The cache key of
    [cacheFunction] (src/src/challenges.js, lines 45-50) converts the
    numbers among the arguments this way. *)

From S2P Require Import Prelude.

(** ** Normal form *)

(** Moves trailing zeros of the mantissa into the exponent. *)
Fixpoint strip_zeros (fuel : nat) (m e : Z) : Z * Z :=
  match fuel with
  | O => (m, e)
  | S f => if (m mod 10 =? 0)%Z then strip_zeros f (m / 10) (e + 1) else (m, e)
  end.

(** A mantissa [m] has at most [log2 |m|] trailing zeros, since
    [10^t <= |m|] implies [2^t <= |m|]. Zero has the normal form [(0, 0)]. *)
Definition norm (a : Z * Z) : Z * Z :=
  let '(m, e) := a in
  if (m =? 0)%Z then (0, 0)%Z else strip_zeros (Z.to_nat (Z.log2 (Z.abs m))) m e.

(** ** Decimal digits *)

(** The digits of a positive integer, least significant first, as code
    units of "0" to "9"; the fuel bounds their number. *)
Fixpoint digits_rev (fuel : nat) (n : Z) : jsstr :=
  match fuel with
  | O => []
  | S f => if (n <=? 0)%Z then [] else ((48 + n mod 10)%Z :: digits_rev f (n / 10))
  end.

(** A positive integer has at most [log2 n + 1] decimal digits. *)
Definition pos_digits (n : Z) : jsstr := rev (digits_rev (S (Z.to_nat (Z.log2 n))) n).

Definition int_digits (n : Z) : jsstr := if (n =? 0)%Z then lit "0" else pos_digits n.

(** ** Reading decimal digits back *)

Definition is_digit (u : Z) : bool := ((48 <=? u) && (u <=? 57))%Z.

(** The value of a string of digits, read from the most significant. *)
Fixpoint digits_value (s : jsstr) (acc : N) : N :=
  match s with
  | [] => acc
  | u :: rest => digits_value rest (10 * acc + Z.to_N (u - 48))%N
  end.

(** ** [Number::toString] *)

(** The steps of the standard for a positive number [s * 10^(n - k)],
    [s] without trailing zero and [k] its number of digits. *)
Definition positive_to_string (s n : Z) : jsstr :=
  let ds := pos_digits s in
  let k := Z.of_nat (length ds) in
  if ((k <=? n) && (n <=? 21))%Z then ds ++ replicate (Z.to_nat (n - k)) 48%Z
  else if ((0 <? n) && (n <=? 21))%Z then take (Z.to_nat n) ds ++ lit "." ++ drop (Z.to_nat n) ds
  else if ((-6 <? n) && (n <=? 0))%Z then lit "0." ++ replicate (Z.to_nat (- n)) 48%Z ++ ds
  else
    let es := lit "e" ++ (if (n - 1 <? 0)%Z then lit "-" else lit "+") ++ int_digits (Z.abs (n - 1)) in
    match ds with
    | [d] => [d] ++ es
    | d :: rest => [d] ++ lit "." ++ rest ++ es
    | [] => es
    end.

(** [Number::toString(x)] for a finite [x = m * 10^e]: "0" for zero, a
    minus sign before the string of [-x] for a negative number. *)
Definition num_to_string (a : Z * Z) : jsstr :=
  let '(m, e) := norm a in
  if (m =? 0)%Z then lit "0"
  else
    let s := Z.abs m in
    (if (m <? 0)%Z then lit "-" else []) ++
    positive_to_string s (e + Z.of_nat (length (pos_digits s))).

(** [Number::toString] on an integral number. *)
Definition number_to_string (z : Z) : jsstr := num_to_string (z, 0%Z).

(** ** Lemmas on the normal form *)

Lemma strip_zeros_spec f m e m' e' :
  strip_zeros f m e = (m', e') -> (e <= e' /\ m = m' * 10 ^ (e' - e))%Z.
Proof.
  revert m e. induction f as [|f IH]; intros m e; simpl.
  { intros [= <- <-]. rewrite Z.sub_diag. lia. }
  destruct (Z.eqb_spec (m mod 10) 0) as [H0|H0]; [|intros [= <- <-]; rewrite Z.sub_diag; lia].
  intros Hs. destruct (IH _ _ Hs) as [Hle Hm].
  split; [lia|]. rewrite (Z.div_mod m 10), H0, Hm by lia.
  replace (e' - e)%Z with (Z.succ (e' - (e + 1))) by lia.
  rewrite Z.pow_succ_r by lia. lia.
Qed.

(** The normal form keeps the value. *)
Lemma norm_spec m e m' e' :
  norm (m, e) = (m', e') ->
  (m = 0 /\ m' = 0 /\ e' = 0 \/ e <= e' /\ m = m' * 10 ^ (e' - e))%Z.
Proof.
  unfold norm. destruct (Z.eqb_spec m 0) as [->|Hm]; [intros [= <- <-]; by left|].
  intros Hs. right. by eapply strip_zeros_spec.
Qed.

(** On integers the normal form is injective: [===] on integral numbers is
    equality of the integers. *)
Lemma norm_int_inj c k : norm (c, 0%Z) = norm (k, 0%Z) -> c = k.
Proof.
  destruct (norm (c, 0%Z)) as [m e] eqn:Hc. intros Hk. symmetry in Hk.
  apply norm_spec in Hc, Hk. rewrite !Z.sub_0_r in *. lia.
Qed.

(** ** The normal form is canonical *)

(** A normal form: zero as [(0, 0)], or a mantissa without trailing zero. *)
Definition canonical (a : Z * Z) : Prop := a = (0%Z, 0%Z) \/ (a.1 mod 10 <> 0)%Z.

Lemma strip_zeros_canonical f m e :
  m <> 0%Z -> (Z.abs m < 2 ^ Z.succ (Z.of_nat f))%Z -> ((strip_zeros f m e).1 mod 10 <> 0)%Z.
Proof.
  revert m e. induction f as [|f IH]; intros m e Hm Hlt; simpl.
  - simpl in Hlt. assert (m = 1 \/ m = -1)%Z as [-> | ->] by lia; done.
  - destruct (Z.eqb_spec (m mod 10) 0) as [H0|H0]; [|done]. apply IH.
    + intros Hq. rewrite (Z.div_mod m 10), H0, Hq in Hm by lia. lia.
    + rewrite (Z.div_mod m 10), H0 in Hlt by lia. rewrite Nat2Z.inj_succ, Z.pow_succ_r in Hlt by lia.
      rewrite Z.add_0_r, Z.abs_mul in Hlt. lia.
Qed.

Lemma norm_canonical a : canonical (norm a).
Proof.
  destruct a as [m e]. unfold norm, canonical.
  destruct (Z.eqb_spec m 0) as [->|Hm]; [by left|right].
  apply strip_zeros_canonical; [done|].
  rewrite Z2Nat.id by apply Z.log2_nonneg. apply Z.log2_spec. lia.
Qed.

(** Two normal forms of the same value are the same. *)
Lemma canonical_unique m1 e1 m2 e2 :
  canonical (m1, e1) -> canonical (m2, e2) -> (e1 <= e2)%Z -> m1 = (m2 * 10 ^ (e2 - e1))%Z ->
  (m1, e1) = (m2, e2).
Proof.
  intros [[= -> ->]|H1] [[= -> ->]|H2] Hle Hm; simpl in *; try done.
  - symmetry in Hm. apply Z.mul_eq_0 in Hm as [->|Hp]; [done|].
    pose proof (Z.pow_pos_nonneg 10 (e2 - 0) ltac:(lia) ltac:(lia)). lia.
  - by rewrite Hm, Z.mul_0_l in H1.
  - destruct (Z.eq_dec e1 e2) as [->|Hne]; [rewrite Z.sub_diag, Z.mul_1_r in Hm; by subst|].
    exfalso. apply H1. rewrite Hm.
    replace (e2 - e1)%Z with (Z.succ (e2 - e1 - 1)) by lia.
    rewrite Z.pow_succ_r by lia. rewrite Z.mul_comm, <- Z.mul_assoc, Z.mul_comm. apply Z.mod_mul. lia.
Qed.

Lemma canonical_value_eq m1 e1 m2 e2 :
  canonical (m1, e1) -> canonical (m2, e2) -> (0 <= e1)%Z -> (0 <= e2)%Z ->
  (m1 * 10 ^ e1 = m2 * 10 ^ e2)%Z -> (m1, e1) = (m2, e2).
Proof.
  intros H1 H2 He1 He2 Hv.
  assert (forall a b, (0 <= a <= b)%Z -> 10 ^ b = 10 ^ (b - a) * 10 ^ a)%Z as Hsplit.
  { intros a b Hab. rewrite <- Z.pow_add_r by lia. f_equal. lia. }
  pose proof (Z.pow_pos_nonneg 10 e1 ltac:(lia) He1).
  pose proof (Z.pow_pos_nonneg 10 e2 ltac:(lia) He2).
  destruct (Z.le_ge_cases e1 e2) as [Hle|Hle].
  - apply canonical_unique; [done|done|done|].
    rewrite (Hsplit e1 e2) in Hv by lia. apply (Z.mul_reg_r _ _ (10 ^ e1)); lia.
  - symmetry. apply canonical_unique; [done|done|done|].
    rewrite (Hsplit e2 e1) in Hv by lia. apply (Z.mul_reg_r _ _ (10 ^ e2)); lia.
Qed.

(** The integral value of a finite number, if it has one. *)
Definition int_of_num (a : Z * Z) : option Z :=
  let '(m, e) := norm a in if (0 <=? e)%Z then Some (m * 10 ^ e)%Z else None.

(** A number has the integral value [c] exactly when it is [===] to [c]. *)
Lemma int_of_num_spec a c : int_of_num a = Some c <-> norm a = norm (c, 0%Z).
Proof.
  unfold int_of_num. destruct (norm a) as [m e] eqn:Ha.
  pose proof (norm_canonical a) as Hca. rewrite Ha in Hca.
  destruct (norm (c, 0%Z)) as [m' e'] eqn:Hc.
  pose proof (norm_canonical (c, 0%Z)) as Hcc. rewrite Hc in Hcc.
  apply norm_spec in Hc. rewrite Z.sub_0_r in Hc.
  assert (0 <= e' /\ c = m' * 10 ^ e')%Z as [He' Hcm].
  { destruct Hc as [(-> & -> & ->)|[? ->]]; [split; lia|done]. }
  destruct (Z.leb_spec 0 e) as [He|He]; split.
  - intros [= Hv]. apply canonical_value_eq; [done..|congruence].
  - intros [= <- <-]. by rewrite Hcm.
  - done.
  - intros [= <- <-]. lia.
Qed.

(** ** Digits *)

Lemma digits_rev_fuel f j n : (n < 10 ^ Z.of_nat f)%Z -> digits_rev (f + j) n = digits_rev f n.
Proof.
  revert n. induction f as [|f IH]; intros n Hn; simpl.
  - simpl in Hn. destruct j; simpl; [done|]. by rewrite (proj2 (Z.leb_le n 0)) by lia.
  - destruct (Z.leb_spec n 0); [done|]. f_equal. apply IH.
    rewrite Nat2Z.inj_succ, Z.pow_succ_r in Hn by lia.
    apply Z.div_lt_upper_bound; lia.
Qed.

(** Any fuel above the number of digits gives the same digits. *)
Lemma digits_rev_fuel_eq f f' n :
  (n < 10 ^ Z.of_nat f)%Z -> (n < 10 ^ Z.of_nat f')%Z -> digits_rev f n = digits_rev f' n.
Proof.
  intros Hf Hf'. destruct (Nat.le_ge_cases f f') as [Hle|Hle].
  - replace f' with (f + (f' - f)) by lia. by rewrite digits_rev_fuel.
  - replace f with (f' + (f - f')) by lia. by rewrite digits_rev_fuel.
Qed.

Lemma pos_digits_fuel n f :
  (0 < n)%Z -> (n < 10 ^ Z.of_nat f)%Z -> pos_digits n = rev (digits_rev f n).
Proof.
  intros Hn Hf. unfold pos_digits. f_equal. apply digits_rev_fuel_eq; [|done].
  pose proof (Z.log2_spec n Hn) as [_ Hl].
  rewrite Nat2Z.inj_succ, Z2Nat.id by apply Z.log2_nonneg.
  eapply Z.lt_le_trans; [exact Hl|]. apply Z.pow_le_mono_l. lia.
Qed.

Lemma length_digits_rev f n : length (digits_rev f n) <= f.
Proof.
  revert n. induction f as [|f IH]; intros n; simpl; [lia|].
  destruct (n <=? 0)%Z; simpl; [lia|]. specialize (IH (n / 10)%Z). lia.
Qed.

(** A non-negative number is below 10 to the number of its digits. *)
Lemma digits_rev_bound f n :
  (0 <= n < 10 ^ Z.of_nat f)%Z -> (n < 10 ^ Z.of_nat (length (digits_rev f n)))%Z.
Proof.
  revert n. induction f as [|f IH]; intros n Hn; simpl; [simpl in Hn; lia|].
  destruct (Z.leb_spec n 0); simpl; [lia|].
  rewrite Nat2Z.inj_succ, Z.pow_succ_r in * by lia.
  assert (n / 10 < 10 ^ Z.of_nat f)%Z by (apply Z.div_lt_upper_bound; lia).
  specialize (IH (n / 10)%Z ltac:(split; [apply Z.div_pos|]; lia)).
  pose proof (Z.mod_pos_bound n 10 ltac:(lia)). rewrite (Z.div_mod n 10) at 1 by lia. lia.
Qed.

(** Trailing zeros of a number are leading zeros of its reversed digits. *)
Lemma digits_rev_mul_pow f t s :
  (0 < s)%Z -> (s < 10 ^ Z.of_nat f)%Z ->
  digits_rev (f + t) (s * 10 ^ Z.of_nat t) = replicate t 48%Z ++ digits_rev f s.
Proof.
  intros Hs Hf. induction t as [|t IH]; simpl.
  { rewrite Nat.add_0_r, Z.mul_1_r. done. }
  replace (f + S t) with (S (f + t)) by lia.
  rewrite Nat2Z.inj_succ, Z.pow_succ_r by lia. simpl.
  pose proof (Z.pow_pos_nonneg 10 (Z.of_nat t) ltac:(lia) ltac:(lia)).
  destruct (Z.leb_spec (s * (10 * 10 ^ Z.of_nat t)) 0); [nia|].
  rewrite Z.mul_assoc, (Z.mul_comm s 10), <- Z.mul_assoc, (Z.mul_comm 10).
  rewrite Z.mod_mul, Z.div_mul by lia. by rewrite IH.
Qed.

Lemma pos_digits_mul_pow m e :
  (0 < m)%Z -> (0 <= e)%Z -> (m * 10 ^ e < 10 ^ 21)%Z ->
  pos_digits (m * 10 ^ e) = pos_digits m ++ replicate (Z.to_nat e) 48%Z /\
  length (pos_digits (m * 10 ^ e)) <= 21.
Proof.
  intros Hm He Hlt.
  pose proof (Z.pow_pos_nonneg 10 e ltac:(lia) He).
  assert (m < 10 ^ 21)%Z as Hm21 by nia.
  set (k := length (digits_rev 21 m)).
  assert (m < 10 ^ Z.of_nat k)%Z as Hmk by (apply digits_rev_bound; simpl; lia).
  assert (m * 10 ^ e < 10 ^ Z.of_nat (k + Z.to_nat e))%Z as Hk.
  { rewrite Nat2Z.inj_add, Z2Nat.id, Z.pow_add_r by lia. nia. }
  split.
  - rewrite (pos_digits_fuel (m * 10 ^ e) (k + Z.to_nat e)), (pos_digits_fuel m k) by nia.
    replace (m * 10 ^ e)%Z with (m * 10 ^ Z.of_nat (Z.to_nat e))%Z by (rewrite Z2Nat.id; lia).
    rewrite digits_rev_mul_pow by done.
    by rewrite rev_app_distr, rev_replicate.
  - rewrite (pos_digits_fuel _ 21) by (simpl; nia). rewrite length_rev. apply length_digits_rev.
Qed.

(** The standard's first case: an integer below 10^21 prints as its
    digits. *)
Lemma positive_to_string_int m e :
  (0 < m)%Z -> (0 <= e)%Z -> (m * 10 ^ e < 10 ^ 21)%Z ->
  positive_to_string m (e + Z.of_nat (length (pos_digits m))) = pos_digits (m * 10 ^ e).
Proof.
  intros Hm He Hlt. destruct (pos_digits_mul_pow m e Hm He Hlt) as [Hd Hlen].
  rewrite Hd in *. rewrite length_app, length_replicate in Hlen.
  unfold positive_to_string.
  rewrite (proj2 (Z.leb_le _ _)) by lia. rewrite (proj2 (Z.leb_le _ 21)) by lia. simpl.
  do 3 f_equal. lia.
Qed.

(** Integers below 10^21 print as their decimal expansion, with a minus
    sign when negative. *)
Lemma number_to_string_int z :
  (Z.abs z < 10 ^ 21)%Z ->
  number_to_string z = (if (z <? 0)%Z then lit "-" else []) ++ int_digits (Z.abs z).
Proof.
  intros Hz. unfold number_to_string, num_to_string.
  destruct (norm (z, 0%Z)) as [m e] eqn:Hn. apply norm_spec in Hn. rewrite Z.sub_0_r in Hn.
  destruct (Z.eqb_spec m 0) as [->|Hm].
  { assert (z = 0%Z) as -> by (destruct Hn as [(-> & _)|[_ ->]]; lia). reflexivity. }
  destruct Hn as [(_ & -> & _)|[He ->]]; [done|].
  pose proof (Z.pow_pos_nonneg 10 e ltac:(lia) He).
  assert ((m * 10 ^ e <? 0) = (m <? 0))%Z as -> by (apply Bool.eq_iff_eq_true; rewrite !Z.ltb_lt; nia).
  unfold int_digits. rewrite (proj2 (Z.eqb_neq _ _)) by nia. f_equal.
  rewrite Z.abs_mul, (Z.abs_eq (10 ^ e)) by lia. rewrite Z.abs_mul, (Z.abs_eq (10 ^ e)) in Hz by lia.
  apply positive_to_string_int; lia.
Qed.

Lemma digits_value_app l r acc : digits_value (l ++ r) acc = digits_value r (digits_value l acc).
Proof. revert acc. induction l as [|u l IH]; intros acc; [done|]. apply IH. Qed.

(** Reading the digits of [n] back gives [n]. *)
Lemma digits_rev_value f n :
  (0 <= n < 10 ^ Z.of_nat f)%Z -> digits_value (rev (digits_rev f n)) 0 = Z.to_N n.
Proof.
  revert n. induction f as [|f IH]; intros n Hn; simpl.
  { simpl in Hn. by replace n with 0%Z by lia. }
  destruct (Z.leb_spec n 0); [by replace n with 0%Z by lia|]. cbn [rev].
  rewrite digits_value_app, IH; simpl.
  - pose proof (Z.div_mod n 10 ltac:(lia)). pose proof (Z.mod_pos_bound n 10 ltac:(lia)).
    pose proof (Z.div_pos n 10 ltac:(lia) ltac:(lia)). lia.
  - rewrite Nat2Z.inj_succ, Z.pow_succ_r in Hn by lia.
    split; [apply Z.div_pos; lia|]. apply Z.div_lt_upper_bound; lia.
Qed.

Lemma digits_rev_digits f n : forallb is_digit (digits_rev f n) = true.
Proof.
  revert n. induction f as [|f IH]; intros n; simpl; [done|].
  destruct (n <=? 0)%Z; simpl; [done|]. rewrite IH, andb_true_r.
  pose proof (Z.mod_pos_bound n 10 ltac:(lia)). unfold is_digit.
  apply andb_true_intro. split; apply Z.leb_le; lia.
Qed.

(** The most significant digit of a positive number is not "0". *)
Lemma digits_rev_last f n :
  (0 < n < 10 ^ Z.of_nat f)%Z -> exists ds d, digits_rev f n = ds ++ [d] /\ d <> 48%Z.
Proof.
  revert n. induction f as [|f IH]; intros n Hn; [simpl in Hn; lia|]. simpl.
  destruct (Z.leb_spec n 0); [lia|].
  rewrite Nat2Z.inj_succ, Z.pow_succ_r in Hn by lia.
  destruct (Z.eq_dec (n / 10) 0) as [Hq|Hq].
  - exists [], (48 + n mod 10)%Z. destruct f; simpl; [|rewrite Hq]; simpl; (split; [done|]).
    all: pose proof (Z.div_mod n 10 ltac:(lia)) as Hdm; rewrite Hq in Hdm; lia.
  - destruct (IH (n / 10)%Z) as (ds & d & -> & Hd).
    + split; [|apply Z.div_lt_upper_bound; lia].
      pose proof (Z.div_pos n 10 ltac:(lia) ltac:(lia)). lia.
    + by exists ((48 + n mod 10)%Z :: ds), d.
Qed.

(** ** Integers print injectively *)

(** The digits of an integer in [0, 10^21): a non-empty string of
    decimal digits that reads back as the integer. *)
Lemma int_digits_spec n :
  (0 <= n < 10 ^ 21)%Z ->
  int_digits n <> [] /\ forallb is_digit (int_digits n) = true /\
  digits_value (int_digits n) 0 = Z.to_N n.
Proof.
  intros Hn. unfold int_digits. destruct (Z.eqb_spec n 0) as [->|Hn0].
  { split_and!; [by vm_compute|reflexivity|reflexivity]. }
  rewrite (pos_digits_fuel n 21) by (simpl; lia).
  destruct (digits_rev_last 21 n ltac:(simpl; lia)) as (ds & d & Hds & _).
  split_and!.
  - rewrite Hds, rev_app_distr. simpl. done.
  - rewrite forallb_rev. apply digits_rev_digits.
  - apply digits_rev_value. simpl. lia.
Qed.

(** Every unit of the string of an integer below [10^21] in absolute
    value is a digit or the minus sign, and there is at least one. *)
Lemma number_to_string_units z :
  (Z.abs z < 10 ^ 21)%Z ->
  number_to_string z <> [] /\ Forall (fun u => is_digit u = true \/ u = 45%Z) (number_to_string z).
Proof.
  intros Hz. rewrite number_to_string_int by done.
  destruct (int_digits_spec (Z.abs z) ltac:(lia)) as (Hne & Hd & _). split.
  - destruct (z <? 0)%Z; cbn; [congruence|done].
  - apply Forall_app. split.
    + destruct (z <? 0)%Z; [repeat constructor; by right|constructor].
    + apply Forall_forall. intros u Hu. left.
      apply (proj1 (forallb_forall _ _) Hd). by apply list_elem_of_In.
Qed.

(** Two integers below [10^21] in absolute value with the same string
    are equal. *)
Lemma number_to_string_inj z1 z2 :
  (Z.abs z1 < 10 ^ 21)%Z -> (Z.abs z2 < 10 ^ 21)%Z ->
  number_to_string z1 = number_to_string z2 -> z1 = z2.
Proof.
  intros H1 H2. rewrite !number_to_string_int by done.
  destruct (int_digits_spec (Z.abs z1) ltac:(lia)) as (Hne1 & Hd1 & Hv1).
  destruct (int_digits_spec (Z.abs z2) ltac:(lia)) as (Hne2 & Hd2 & Hv2).
  assert (Z.to_N (Z.abs z1) = Z.to_N (Z.abs z2) -> Z.abs z1 = Z.abs z2) as Habs.
  { apply Z2N.inj; lia. }
  destruct (Z.ltb_spec z1 0), (Z.ltb_spec z2 0); cbn [app lit]; intros Heq.
  - injection Heq as Heq. rewrite Heq in Hv1. lia.
  - destruct (int_digits (Z.abs z2)) as [|u t]; [done|].
    injection Heq as <- _. cbn in Hd2. discriminate.
  - destruct (int_digits (Z.abs z1)) as [|u t]; [done|].
    injection Heq as -> _. cbn in Hd1. discriminate.
  - rewrite Heq in Hv1. lia.
Qed.
