(* ===== verification/JsValue.v ===== *)
(** * JavaScript values, heap objects and strict equality

    The values that src/src/challenges.js handles, the heap that holds
    its arrays and objects, the heap invariant and the [===] operator
    used by [limitFunctionCallCount] (line 26) and
    [checkMatchingLeaves] (line 72). *)

From S2P Require Import Prelude JsNumber.

(** ** Values

    Objects (arrays and ordinary objects) are values by reference: [JRef r]
    is the address of an object on the heap. Numbers are the integral ones
    ([JNum z]), NaN, -0, the two infinities and the other finite numbers
    as [JDec m e], standing for [m * 10^e] (see [JsNumber]). The model has
    more numbers than the doubles of JavaScript (any integer, any decimal);
    each double is one of them. A Symbol is known by its identity
    [JSym id]: every call of [Symbol()] gives a new one. *)

Inductive jsval :=
| JUndefined
| JNull
| JBool (b : bool)
| JNum (z : Z)
| JNaN
| JStr (s : jsstr)
| JRef (r : nat)
| JNegZero
| JInf (neg : bool)
| JDec (m e : Z)
| JSym (id : nat).

#[export] Instance jsval_eq_dec : EqDecision jsval.
Proof. solve_decision. Defined.

(** ** Heap objects

    An array is its list of elements, [None] standing for a hole; an
    ordinary object is its list of own data properties in insertion
    order. *)

Inductive obj :=
| OArray (elems : list (option jsval))
| OPlain (props : list (jsstr * jsval)).

#[export] Instance obj_eq_dec : EqDecision obj.
Proof. solve_decision. Defined.

Record heap := mk_heap { hobjs : gmap nat obj; hnext : nat }.

Definition empty_heap : heap := mk_heap ∅ 0.

(** Allocation of a new object at the next free address. *)
Definition alloc (o : obj) (h : heap) : nat * heap :=
  (hnext h, mk_heap (<[hnext h := o]> (hobjs h)) (S (hnext h))).

(** Replacement of the object at an address (an in-place mutation). *)
Definition heap_write (r : nat) (o : obj) (h : heap) : heap :=
  mk_heap (<[r := o]> (hobjs h)) (hnext h).

(** ** The heap invariant

    Every object lives below [hnext], and every reference stored in an
    object points to an allocated object. *)

Definition val_ref (v : jsval) : option nat :=
  match v with JRef r => Some r | _ => None end.

Definition obj_vals (o : obj) : list jsval :=
  match o with
  | OArray es => omap id es
  | OPlain ps => map snd ps
  end.

Definition val_ok (h : heap) (v : jsval) : Prop :=
  forall r, val_ref v = Some r -> is_Some (hobjs h !! r).

Definition heap_wf (h : heap) : Prop :=
  forall r o, hobjs h !! r = Some o ->
    r < hnext h /\ Forall (val_ok h) (obj_vals o).

(** The heap [h'] only grew from [h]: no object was changed or removed. *)
Definition heap_extends (h h' : heap) : Prop :=
  hobjs h ⊆ hobjs h' /\ hnext h <= hnext h'.

(** The heap [h'] kept every address of [h]: objects may have been
    written in place ([resultingArr.push]), none was removed. *)
Definition heap_grows (h h' : heap) : Prop :=
  (forall r, is_Some (hobjs h !! r) -> is_Some (hobjs h' !! r)) /\ hnext h <= hnext h'.

(** ** Strict equality, [===] (ECMA-262 IsStrictlyEqual) *)

(** The finite numbers: integral ones, -0 and the others as [m * 10^e]. *)
Definition num_of (v : jsval) : option (Z * Z) :=
  match v with
  | JNum z => Some (z, 0%Z)
  | JNegZero => Some (0%Z, 0%Z)
  | JDec m e => Some (m, e)
  | _ => None
  end.

(** Numbers compare by value ([+0 === -0], [2 === 2.0]); NaN is equal to
    nothing; other values compare by type and content, objects and
    symbols by identity. *)
Definition strict_eq (v w : jsval) : bool :=
  match v, w with
  | JUndefined, JUndefined => true
  | JNull, JNull => true
  | JBool a, JBool b => Bool.eqb a b
  | JStr s, JStr t => bool_decide (s = t)
  | JRef r, JRef q => Nat.eqb r q
  | JInf a, JInf b => Bool.eqb a b
  | JSym a, JSym b => Nat.eqb a b
  | _, _ =>
      match num_of v, num_of w with
      | Some a, Some b => bool_decide (norm a = norm b)
      | _, _ => false
      end
  end.

(** ** Lemmas on the heap *)

#[export] Instance heap_extends_preorder : PreOrder heap_extends.
Proof.
  split.
  - intros h. split; [reflexivity | lia].
  - intros h1 h2 h3 [? ?] [? ?]. split; [etrans; eauto | lia].
Qed.

Lemma heap_extends_lookup h h' r o :
  heap_extends h h' -> hobjs h !! r = Some o -> hobjs h' !! r = Some o.
Proof. intros [Hsub _] Hr. eapply lookup_weaken; eauto. Qed.

Lemma val_ok_extends h h' v : heap_extends h h' -> val_ok h v -> val_ok h' v.
Proof.
  intros Hext Hv r Hr. destruct (Hv r Hr) as [o Ho].
  eexists. eapply heap_extends_lookup; eauto.
Qed.

Lemma wf_lookup_lt h r o : heap_wf h -> hobjs h !! r = Some o -> r < hnext h.
Proof. intros Hwf Hr. apply (Hwf r o Hr). Qed.

Lemma wf_fresh h : heap_wf h -> hobjs h !! hnext h = None.
Proof.
  intros Hwf. destruct (hobjs h !! hnext h) as [o|] eqn:Ho; [|done].
  apply wf_lookup_lt in Ho; [lia | done].
Qed.

Lemma alloc_extends o h : heap_wf h -> heap_extends h (alloc o h).2.
Proof.
  intros Hwf. split; simpl; [|lia].
  apply insert_subseteq. by apply wf_fresh.
Qed.

Lemma alloc_wf o h :
  heap_wf h -> Forall (val_ok h) (obj_vals o) -> heap_wf (alloc o h).2.
Proof.
  intros Hwf Ho. pose proof (alloc_extends o h Hwf) as Hext.
  intros r o' Hr. simpl in Hr. apply lookup_insert_Some in Hr as [[<- <-]|[Hne Hr]].
  - split; [simpl; lia|]. eapply Forall_impl; [exact Ho|]. intros v. by apply val_ok_extends.
  - destruct (Hwf r o' Hr) as [Hlt Hvs]. split; [simpl; lia|].
    eapply Forall_impl; [exact Hvs|]. intros v. by apply val_ok_extends.
Qed.

#[export] Instance heap_grows_preorder : PreOrder heap_grows.
Proof.
  split.
  - intros h. split; [done | lia].
  - intros h1 h2 h3 [? ?] [? ?]. split; [eauto | lia].
Qed.

Lemma heap_extends_grows h h' : heap_extends h h' -> heap_grows h h'.
Proof.
  intros Hext. split; [|apply Hext]. intros r [o Ho]. eexists. by eapply heap_extends_lookup.
Qed.

Lemma val_ok_grows h h' v : heap_grows h h' -> val_ok h v -> val_ok h' v.
Proof. intros [Hg _] Hv r Hr. by apply Hg, Hv. Qed.

Lemma empty_heap_wf : heap_wf empty_heap.
Proof. intros r o Hr. simpl in Hr. by rewrite lookup_empty in Hr. Qed.

Lemma vals_ok_extends h h' vs :
  heap_extends h h' -> Forall (val_ok h) vs -> Forall (val_ok h') vs.
Proof. intros Hext Hvs. eapply Forall_impl; [exact Hvs|]. eauto using val_ok_extends. Qed.

#[export] Hint Resolve heap_extends_lookup val_ok_extends vals_ok_extends alloc_extends alloc_wf
  heap_extends_grows val_ok_grows : js.

(** ** Lemmas on strict equality *)

(** What [===] compares: the class of a value, [None] for NaN. *)
Inductive strict_class :=
| SUndefined | SNull | SBool (b : bool) | SStr (s : jsstr) | SRef (r : nat)
| SInf (neg : bool) | SNum (a : Z * Z) | SSym (id : nat).

Definition class_of (v : jsval) : option strict_class :=
  match v with
  | JUndefined => Some SUndefined
  | JNull => Some SNull
  | JBool b => Some (SBool b)
  | JStr s => Some (SStr s)
  | JRef r => Some (SRef r)
  | JInf b => Some (SInf b)
  | JSym a => Some (SSym a)
  | JNaN => None
  | JNum _ | JNegZero | JDec _ _ => (fun a => SNum (norm a)) <$> num_of v
  end.

Lemma strict_eq_class v w :
  strict_eq v w = true <-> class_of v = class_of w /\ is_Some (class_of v).
Proof.
  destruct v, w; cbn -[norm];
    rewrite ?Bool.eqb_true_iff, ?Z.eqb_eq, ?Nat.eqb_eq, ?bool_decide_eq_true;
    first [split; intros; naive_solver
          | split; [intros Hn; rewrite Hn; split; [done | by eexists] | intros [[= Hn] _]; exact Hn]].
Qed.

Lemma strict_eq_sym v w : strict_eq v w = strict_eq w v.
Proof.
  apply Bool.eq_iff_eq_true. rewrite !strict_eq_class.
  split; intros [Heq Hs]; (split; [congruence | by rewrite <- Heq]).
Qed.

Lemma strict_eq_trans u v w : strict_eq u v = true -> strict_eq v w = true -> strict_eq u w = true.
Proof. rewrite !strict_eq_class. intros [-> ?] [-> ?]. done. Qed.

(** Replacing an operand by a [===]-equal value does not change [===]. *)
Lemma strict_eq_congr_r u v w : strict_eq v w = true -> strict_eq u v = strict_eq u w.
Proof.
  intros Hvw. apply Bool.eq_iff_eq_true. split; intros H; [by eapply strict_eq_trans|].
  rewrite strict_eq_sym in Hvw. by eapply strict_eq_trans.
Qed.

(** [===] is reflexive except on NaN. *)
Lemma strict_eq_refl v : v <> JNaN -> strict_eq v v = true.
Proof. intros Hv. apply strict_eq_class. split; [done|]. destruct v; naive_solver. Qed.

Lemma strict_eq_not_nan v w : strict_eq v w = true -> v <> JNaN.
Proof. by intros ? ->. Qed.

(** On integral numbers [===] is equality of the integers. *)
Lemma strict_eq_num c k : strict_eq (JNum c) (JNum k) = Z.eqb c k.
Proof.
  simpl. apply Bool.eq_iff_eq_true. rewrite bool_decide_eq_true, Z.eqb_eq.
  split; [apply norm_int_inj | by intros ->].
Qed.

(** The integral value of a number, if it has one ([2], [2.0], [-0]). *)
Definition int_value (v : jsval) : option Z := num_of v ≫= int_of_num.

(** [c === n] holds exactly when [n] is a number with the integral value [c]. *)
Lemma strict_eq_int c n : strict_eq (JNum c) n = true <-> int_value n = Some c.
Proof.
  unfold int_value. destruct n; cbn -[norm int_of_num]; try done;
    rewrite bool_decide_eq_true, int_of_num_spec; split; congruence.
Qed.
