(* ===== verification/JsString.v ===== *)
(** * String conversion and property keys

    [ToString] of the values of [JsValue], and [ToPropertyKey] of the
    argument array, which [cacheFunction] uses as the cache key
    ([hasOwnProperty.call(cache, args)], [cache[args] = result] and
    [return cache[args]], src/src/challenges.js lines 45, 47 and 50).
    An array converts through [Array.prototype.toString], that is
    [join(",")]: a hole, [undefined] or [null] element gives the empty
    string and every other element is converted recursively, a number
    by [Number::toString] ([JsNumber.num_to_string]) and a Symbol not at
    all: [ToString] of a Symbol throws a [TypeError]. V8 keeps the
    arrays being joined on a stack and converts an array already on it to
    the empty string; the recursion is fuelled, and [to_str_enough] shows
    that [js_fuel h] is always enough. *)

From S2P Require Import Prelude JsNumber JsValue.

(** ** Conversion of primitive values *)

(** One element inside [join]: holes, [undefined] and [null] give "". *)
Definition elem_string (conv : jsval -> option jsstr) (e : option jsval) : option jsstr :=
  match e with
  | None | Some JUndefined | Some JNull => Some []
  | Some v => conv v
  end.

(** [ToString] with V8's join stack [stk]. An ordinary object converts
    through [Object.prototype.toString]. [None] is a conversion that
    throws, which on a well-formed heap is a Symbol reached by the join
    ([TypeError]); an exhausted fuel or a dangling address also give
    [None], and do not happen on a well-formed heap ([to_str_enough]). *)
Fixpoint to_str (fuel : nat) (h : heap) (stk : list nat) (v : jsval) : option jsstr :=
  match v with
  | JUndefined => Some (lit "undefined")
  | JNull => Some (lit "null")
  | JBool true => Some (lit "true")
  | JBool false => Some (lit "false")
  | JNum z => Some (number_to_string z)
  | JNaN => Some (lit "NaN")
  | JNegZero => Some (lit "0")
  | JInf false => Some (lit "Infinity")
  | JInf true => Some (lit "-Infinity")
  | JDec m e => Some (num_to_string (m, e))
  | JSym _ => None
  | JStr s => Some s
  | JRef r =>
      match fuel with
      | O => None
      | S f =>
          match hobjs h !! r with
          | Some (OArray es) =>
              if decide (r ∈ stk) then Some []
              else ss ← mapM (elem_string (to_str f h (r :: stk))) es;
                   Some (intercalate (lit ",") ss)
          | Some (OPlain _) => Some (lit "[object Object]")
          | None => None
          end
      end
  end.

(** The fuel: one more than the number of addresses. *)
Definition js_fuel (h : heap) : nat := S (hnext h).

(** [ToPropertyKey]: for the values of the model, [ToString]. *)
Definition to_property_key (h : heap) (v : jsval) : option jsstr :=
  to_str (js_fuel h) h [] v.

(** ** Termination with the chosen fuel *)

Definition unvisited (h : heap) (stk : list nat) : nat :=
  length (filter (fun x => x ∉ stk) (seq 0 (hnext h))).

Lemma unvisited_push h stk r :
  r < hnext h -> r ∉ stk -> unvisited h (r :: stk) < unvisited h stk.
Proof.
  intros Hr Hstk. apply filter_notin_push_lt; [|done].
  apply elem_of_seq. lia.
Qed.

Lemma unvisited_le h stk : unvisited h stk <= hnext h.
Proof.
  unfold unvisited. rewrite <- (length_seq (hnext h) 0) at 2.
  apply length_filter.
Qed.

(** Fuel above the number of arrays not yet on the join stack is enough:
    more fuel, or a heap that only grew, gives the same outcome, a string
    or a throw. *)
Lemma to_str_enough f f' h h' stk v :
  heap_wf h -> heap_extends h h' -> val_ok h v -> unvisited h stk < f -> f <= f' ->
  to_str f' h' stk v = to_str f h stk v.
Proof.
  revert f' stk v. induction f as [|f IH]; intros f' stk v Hwf Hext Hv Hf Hf'; [lia|].
  destruct f' as [|f']; [lia|].
  destruct v as [| |[]| | | |r| |[]| |]; simpl; try done.
  destruct (Hv r eq_refl) as [o Ho]. rewrite Ho, (heap_extends_lookup _ _ _ _ Hext Ho).
  destruct o as [es|ps]; [|done]. case_decide; [done|].
  destruct (Hwf r _ Ho) as [Hlt Hvals]. simpl in Hvals.
  pose proof (unvisited_push h stk r Hlt ltac:(done)).
  erewrite Forall_mapM_ext; [done|]. apply Forall_forall. intros [v|] He; [|done].
  assert (val_ok h v) as Hv'.
  { eapply Forall_forall; [exact Hvals|]. apply list_elem_of_omap. eauto. }
  destruct v; try done; simpl; apply IH; auto with lia.
Qed.

(** ** Stability: more fuel and a larger heap give the same string *)

Lemma to_str_mono f f' h h' stk v s :
  heap_extends h h' -> f <= f' -> to_str f h stk v = Some s -> to_str f' h' stk v = Some s.
Proof.
  revert f' stk v s. induction f as [|f IH]; intros f' stk v s Hext Hf Hs.
  { destruct f', v as [| |[]| | | |r| |[]| |]; simpl in *; congruence. }
  destruct f' as [|f']; [lia|].
  destruct v as [| |[]| | | |r| |[]| |]; simpl in *; try done.
  destruct (hobjs h !! r) as [o|] eqn:Ho; [|done].
  rewrite (heap_extends_lookup h h' r o Hext Ho).
  destruct o as [es|ps]; [|done]. case_decide; [done|].
  destruct (mapM _ es) as [ss|] eqn:Hss; simpl in Hs; [|done].
  erewrite mapM_Some_mono; [exact Hs| |exact Hss].
  intros [v|] t _; simpl; [|done].
  destruct v; try done; apply IH; auto with lia.
Qed.

(** ** The key of a value *)

Lemma to_property_key_extends h h' v s :
  heap_extends h h' -> to_property_key h v = Some s -> to_property_key h' v = Some s.
Proof.
  intros Hext. apply to_str_mono; [done|]. destruct Hext. unfold js_fuel. lia.
Qed.

(** The key of a well-formed value, a string or a throw, does not change
    when the heap grows. *)
Lemma to_property_key_stable h h' v :
  heap_wf h -> heap_extends h h' -> val_ok h v -> to_property_key h' v = to_property_key h v.
Proof.
  intros Hwf Hext Hv. pose proof (unvisited_le h []).
  apply to_str_enough; try done; unfold js_fuel; [lia|]. destruct Hext. lia.
Qed.

#[export] Hint Resolve to_property_key_extends : js.

(** ** The key of an argument list *)

(** [args.join(",")] for an argument list, each element converted on
    its own. *)
Definition list_key (h : heap) (args : list jsval) : option jsstr :=
  ss ← mapM (elem_string (to_property_key h)) (map Some args);
  Some (intercalate (lit ",") ss).

(** Addresses outside the heap a value lives in do not matter on the
    join stack. *)
Lemma to_str_stack_irrel f h h' stk stk' v :
  heap_wf h -> heap_extends h h' -> val_ok h v ->
  (forall r, is_Some (hobjs h !! r) -> r ∈ stk <-> r ∈ stk') ->
  to_str f h' stk v = to_str f h' stk' v.
Proof.
  revert stk stk' v. induction f as [|f IH]; intros stk stk' v Hwf Hext Hv Hst.
  { by destruct v. }
  destruct v as [| |[]| | | |r| |[]| |]; simpl; try done.
  destruct (Hv r eq_refl) as [o Ho]. rewrite (heap_extends_lookup _ _ _ _ Hext Ho).
  destruct o as [es|ps]; [|done].
  destruct (Hwf r _ Ho) as [_ Hvals]. simpl in Hvals.
  assert (r ∈ stk <-> r ∈ stk') as Hr by (apply Hst; eauto).
  case_decide as H1; case_decide as H2; [done|tauto|tauto|].
  erewrite Forall_mapM_ext; [done|]. apply Forall_forall. intros [v|] He; [|done].
  assert (val_ok h v) as Hv'.
  { eapply Forall_forall; [exact Hvals|]. apply list_elem_of_omap. eauto. }
  destruct v; try done; simpl; apply IH; try done; intros r' Hr'; rewrite !elem_of_cons;
    specialize (Hst r' Hr'); tauto.
Qed.

Lemma args_ok_elems h args v :
  Forall (val_ok h) args -> Some v ∈ map Some args -> val_ok h v.
Proof.
  intros Hargs Hv. apply list_elem_of_fmap in Hv as (v' & [= ->] & Hv').
  by eapply Forall_forall.
Qed.

(** The key of a fresh array holding [args], on any well-formed heap that
    extends the one [args] live in, is [list_key]. *)
Lemma fresh_array_key h h' a args :
  heap_wf h -> heap_wf h' -> heap_extends h h' -> hnext h <= a ->
  Forall (val_ok h) args -> hobjs h' !! a = Some (OArray (map Some args)) ->
  to_property_key h' (JRef a) = list_key h args.
Proof.
  intros Hwf Hwf' Hext Ha Hargs Hlook.
  pose proof (wf_lookup_lt _ _ _ Hwf' Hlook) as Ha'.
  unfold to_property_key, js_fuel, list_key. simpl. rewrite Hlook.
  erewrite Forall_mapM_ext; [done|]. apply Forall_forall. intros [v|] Hv; [|done].
  pose proof (args_ok_elems h args v Hargs Hv) as Hv'.
  assert (to_str (hnext h') h' [a] v = to_property_key h v) as Heq.
  { transitivity (to_str (hnext h') h' [] v).
    - apply to_str_stack_irrel with h; try done.
      intros r' [o Ho]. pose proof (wf_lookup_lt _ _ _ Hwf Ho).
      rewrite list_elem_of_singleton. split; [lia|]. by intros ?%elem_of_nil.
    - pose proof (unvisited_le h []). apply to_str_enough; try done; unfold js_fuel; lia. }
  destruct v; cbn [elem_string]; done.
Qed.

Lemma list_key_extends h h' args :
  heap_wf h -> heap_extends h h' -> Forall (val_ok h) args ->
  list_key h' args = list_key h args.
Proof.
  intros Hwf Hext Hargs. unfold list_key.
  erewrite Forall_mapM_ext; [done|]. apply Forall_forall. intros [v|] Hv; [|done].
  pose proof (args_ok_elems h args v Hargs Hv) as Hv'.
  destruct v; try done; simpl; by apply to_property_key_stable.
Qed.

(** The key of a list of integers: their decimal strings joined by ",". *)
Lemma list_key_ints h zs :
  list_key h (List.map JNum zs) = Some (intercalate (lit ",") (List.map number_to_string zs)).
Proof.
  unfold list_key.
  assert (mapM (elem_string (to_property_key h)) (List.map Some (List.map JNum zs)) =
          Some (List.map number_to_string zs)) as -> by (induction zs as [|z zs IH]; simpl; [done|]; by rewrite IH).
  done.
Qed.

(** Distinct lists of integers below [10^21] in absolute value have
    distinct keys: the digits and the minus sign contain no ",". *)
Lemma list_key_ints_inj zs1 zs2 :
  Forall (fun z => Z.abs z < 10 ^ 21)%Z zs1 -> Forall (fun z => Z.abs z < 10 ^ 21)%Z zs2 ->
  intercalate (lit ",") (List.map number_to_string zs1) =
  intercalate (lit ",") (List.map number_to_string zs2) -> zs1 = zs2.
Proof.
  intros H1 H2 Heq.
  assert (forall zs, Forall (fun z => Z.abs z < 10 ^ 21)%Z zs ->
    Forall (fun s => s <> [] /\ 44%Z ∉ s) (List.map number_to_string zs)) as Hparts.
  { intros zs Hzs. apply Forall_fmap. eapply Forall_impl; [exact Hzs|]. intros z Hz. simpl.
    destruct (number_to_string_units z Hz) as [Hne Hu]. split; [done|]. intros Hc.
    destruct (proj1 (Forall_forall _ _) Hu 44%Z Hc) as [Hd|Hd]; [by vm_compute in Hd|lia]. }
  apply (intercalate_inj 44 _ _ (Hparts _ H1) (Hparts _ H2)) in Heq.
  revert zs2 H2 Heq. induction zs1 as [|z1 zs1 IH]; intros [|z2 zs2] H2 Heq; try done.
  apply Forall_cons in H1 as [Hz1 H1]. apply Forall_cons in H2 as [Hz2 H2].
  injection Heq as Hz Hzs. f_equal; [by apply number_to_string_inj|]. by apply IH.
Qed.
