(* ===== verification/JsMonad.v ===== *)
(** * Effects: exceptions, the heap, closure state and callback calls

    The functions of src/src/challenges.js run on the heap, may throw
    (a [TypeError] from a missing method, or whatever a user callback
    throws), keep private state in closures ([counter], line 24, and
    [cache], line 43) and call user callbacks. A computation [js L A]
    runs on the closure-local state [L] and the heap, ends with a
    [completion], and returns the trace of the callback calls it made:
    one event per call, holding the argument list. *)

From S2P Require Import Prelude JsValue.

(** ** Completions *)

Inductive exn :=
| TypeError
| Thrown (v : jsval).

Inductive completion (A : Type) :=
| Normal (a : A)
| Abrupt (e : exn).
Arguments Normal {A} a.
Arguments Abrupt {A} e.

(** A user callback: a JavaScript function applied to an argument list.
    It may read and change the heap and may throw. *)
Definition callback := list jsval -> heap -> completion jsval * heap.

(** One callback call, by its argument list. *)
Definition event := list jsval.

(** ** The monad *)

Definition js (L A : Type) := L * heap -> completion A * (L * heap) * list event.

Definition ret {L A} (a : A) : js L A := fun s => (Normal a, s, []).

Definition bind {L A B} (m : js L A) (k : A -> js L B) : js L B :=
  fun s =>
    match m s with
    | (Normal a, s1, t1) => let '(r, s2, t2) := k a s1 in (r, s2, t1 ++ t2)
    | (Abrupt e, s1, t1) => (Abrupt e, s1, t1)
    end.

Notation "x <- m ;; k" := (bind m (fun x => k))
  (at level 100, m at next level, k at level 200, right associativity) : js_scope.
Notation "m ;; k" := (bind m (fun _ => k)) : js_scope.
Open Scope js_scope.

Definition throw {L A} (e : exn) : js L A := fun s => (Abrupt e, s, []).

(** The closure's private state. *)
Definition getl {L} : js L L := fun '(l, h) => (Normal l, (l, h), []).
Definition putl {L} (l : L) : js L unit := fun '(_, h) => (Normal tt, (l, h), []).

Definition get_heap {L} : js L heap := fun '(l, h) => (Normal h, (l, h), []).

(** Allocation of a new object. *)
Definition new_obj {L} (o : obj) : js L nat :=
  fun '(l, h) => let '(r, h') := alloc o h in (Normal r, (l, h'), []).

(** The call of a user callback: it acts on the heap only, since the
    closure's own variables are not reachable from it. *)
Definition invoke {L} (cb : callback) (args : list jsval) : js L jsval :=
  fun '(l, h) => let '(r, h') := cb args h in (r, (l, h'), [args]).

(** Unfolds the monad's operations; the equations of the closures' calls
    are proved by it and case analysis. *)
Ltac unfold_js := unfold bind, ret, throw, getl, putl, get_heap, new_obj, invoke.

(** ** Closures: the interface of a function value with private state *)

Record closure (L : Type) := mk_closure {
  cl_state : L;
  cl_call : list jsval -> js L jsval
}.
Arguments mk_closure {L} cl_state cl_call.
Arguments cl_state {L} c.
Arguments cl_call {L} c.

(** A sequence of calls of the same function value; each call ends with
    its own completion (a caller may catch what one call throws and go
    on calling). *)
Fixpoint run_calls {L} (call : list jsval -> js L jsval) (calls : list (list jsval))
    (s : L * heap) : list (completion jsval) * (L * heap) * list event :=
  match calls with
  | [] => ([], s, [])
  | args :: rest =>
      let '(r, s1, t1) := call args s in
      let '(rs, s2, t2) := run_calls call rest s1 in
      (r :: rs, s2, t1 ++ t2)
  end.

(** Running a closure created on the heap [h]. *)
Definition run_closure {L} (c : closure L) (calls : list (list jsval)) (h : heap) :=
  run_calls (cl_call c) calls (cl_state c, h).

(** The states a function value can reach by calls. *)
Inductive reachable {L} (call : list jsval -> js L jsval) (s0 : L * heap) : L * heap -> Prop :=
| reach_init : reachable call s0 s0
| reach_step s args r s' t :
    reachable call s0 s -> call args s = (r, s', t) -> reachable call s0 s'.

(** ** Callbacks that do not change existing objects *)

Definition completion_ok (h : heap) (r : completion jsval) : Prop :=
  match r with
  | Normal v | Abrupt (Thrown v) => val_ok h v
  | Abrupt _ => True
  end.

(** A thrown value is well formed; the engine's own errors are fresh. *)
Definition exn_ok (h : heap) (e : exn) : Prop :=
  match e with
  | Thrown v => val_ok h v
  | _ => True
  end.

(** A callback that only allocates: applied to well-formed arguments on a
    well-formed heap it leaves a well-formed heap that extends the first,
    and returns or throws a well-formed value. *)
Definition cb_extends (cb : callback) : Prop :=
  forall args h, heap_wf h -> Forall (val_ok h) args ->
    heap_extends h (cb args h).2 /\ heap_wf (cb args h).2 /\
    completion_ok (cb args h).2 (cb args h).1.

(** A callback that never throws. *)
Definition cb_total (cb : callback) : Prop :=
  forall args h, exists v, (cb args h).1 = Normal v.

(** Invariants of a function value: preserved by every call, they hold on
    every reachable state. *)
(** Two call operations that agree on every call agree on every sequence. *)
Lemma run_calls_ext {L} (f g : list jsval -> js L jsval) calls s :
  (forall args s', f args s' = g args s') -> run_calls f calls s = run_calls g calls s.
Proof.
  intros Hfg. revert s. induction calls as [|args rest IH]; intros s; [done|].
  simpl. rewrite Hfg. destruct (g args s) as [[r s1] t1]. by rewrite IH.
Qed.

Lemma reachable_invariant {L} (call : list jsval -> js L jsval) (P : L * heap -> Prop) s0 s :
  P s0 -> (forall s args, P s -> P (call args s).1.2) -> reachable call s0 s -> P s.
Proof.
  intros H0 Hstep Hr. induction Hr as [|s args r s' t Hr IH Hc]; [done|].
  specialize (Hstep s args IH). by rewrite Hc in Hstep.
Qed.

#[export] Hint Constructors reachable : js.

Lemma exn_ok_grows h h' e : heap_grows h h' -> exn_ok h e -> exn_ok h' e.
Proof. destruct e; simpl; eauto using val_ok_grows. Qed.

Lemma completion_ok_grows h h' r : heap_grows h h' -> completion_ok h r -> completion_ok h' r.
Proof. destruct r as [v|[|v]]; simpl; eauto using val_ok_grows. Qed.

#[export] Hint Resolve exn_ok_grows completion_ok_grows : js.

(** A callback that returns a primitive and leaves the heap alone only
    allocates. *)
Lemma prim_callback_extends (f : list jsval -> heap -> jsval) :
  (forall args h, val_ref (f args h) = None) -> cb_extends (fun args h => (Normal (f args h), h)).
Proof.
  intros Hf args h Hwf _. simpl. split_and!; [reflexivity|done|].
  intros r Hr. by rewrite Hf in Hr.
Qed.

(** ** The monad laws (trace concatenation is associative, [[]] its unit) *)

Lemma bind_ret_l {L A B} (a : A) (k : A -> js L B) s : bind (ret a) k s = k a s.
Proof. unfold bind, ret. destruct (k a s) as [[r s'] t]. done. Qed.

Lemma bind_ret_r {L A} (m : js L A) s : bind m ret s = m s.
Proof. unfold bind, ret. destruct (m s) as [[[a|e] s'] t]; by rewrite ?app_nil_r. Qed.

Lemma bind_assoc {L A B C} (m : js L A) (f : A -> js L B) (g : B -> js L C) s :
  bind (bind m f) g s = bind m (fun a => bind (f a) g) s.
Proof.
  unfold bind. destruct (m s) as [[[a|e] s1] t1]; [|done].
  destruct (f a s1) as [[[b|e] s2] t2]; [|done].
  destruct (g b s2) as [[r s3] t3]. by rewrite app_assoc.
Qed.

(** ** Simulation of one function value by another

    Two function values whose single calls, from related states and on
    arguments satisfying [P], give the same completion, heap and trace and
    related states again, give the same results over any sequence of
    calls. This is the refinement principle the abstract specifications of
    the closures are checked with. *)

Section Simulation.
Context {L M : Type} (f : list jsval -> js L jsval) (g : list jsval -> js M jsval).
Context (P : list jsval -> Prop) (R : L -> M -> heap -> Prop).
Hypothesis sim_step : forall args l m h, P args -> R l m h ->
  let '(r1, (l', h1), t1) := f args (l, h) in
  let '(r2, (m', h2), t2) := g args (m, h) in
  r1 = r2 /\ h1 = h2 /\ t1 = t2 /\ R l' m' h1.

Lemma run_calls_simulation calls l m h :
  Forall P calls -> R l m h ->
  let '(rs1, (l', h1), t1) := run_calls f calls (l, h) in
  let '(rs2, (m', h2), t2) := run_calls g calls (m, h) in
  rs1 = rs2 /\ h1 = h2 /\ t1 = t2 /\ R l' m' h1.
Proof.
  revert l m h. induction calls as [|args rest IH]; intros l m h Hcalls HR; simpl; [done|].
  apply Forall_cons in Hcalls as [Hargs Hrest].
  pose proof (sim_step args l m h Hargs HR) as Hs.
  destruct (f args (l, h)) as [[r1 [l1 h1]] t1], (g args (m, h)) as [[r2 [m1 h2]] t2].
  destruct Hs as (-> & <- & -> & HR1).
  specialize (IH l1 m1 h1 Hrest HR1).
  destruct (run_calls f rest (l1, h1)) as [[rs1 [l' h1']] t1'].
  destruct (run_calls g rest (m1, h1)) as [[rs2 [m' h2']] t2'].
  destruct IH as (-> & -> & -> & ?). done.
Qed.
End Simulation.
