(* ===== verification/Limiter.v ===== *)
(** * The call limiter: [limitFunctionCallCount] (src/src/challenges.js, lines 21-32)

<<
const limitFunctionCallCount = (cb, n) => {
  let counter = 0;
  return (...args) => {
    if (counter === n) { return null; }
    counter++;
    return cb(...args);
  };
};
>>
    The closure state is [counter], a JavaScript number; [n] is any
    value, compared with [===]. The callback receives the arguments
    spread. The theorems: the callback runs exactly on the first [n]
    calls when [n] is an integer in [0, 2^53] and on every call
    otherwise; the later calls return [null]; the counter stays in
    [0, min n 2^53]; a call whose callback throws still spends budget.
    The closure refines [budget_call], the contract of spec.md 4.1 (a
    budget of calls left), through the simulation lemma of [JsMonad]. *)

From S2P Require Import Prelude JsValue JsMonad.

Module CallLimiter.

(** ** The model *)

(** [counter++] on a double: exact up to 2^53, where [2^53 + 1] rounds
    back to [2^53] (round half to even). *)
Definition js_incr (c : Z) : Z := if (c <? 2 ^ 53)%Z then (c + 1)%Z else c.

(** The returned arrow function (lines 25-31). *)
Definition limited_call (cb : callback) (n : jsval) (args : list jsval) : js Z jsval :=
  counter <- getl ;;
  if strict_eq (JNum counter) n then ret JNull
  else putl (js_incr counter) ;; invoke cb args.

(** The factory (lines 21-24): a fresh counter at 0. *)
Definition limitFunctionCallCount (cb : callback) (n : jsval) : closure Z :=
  mk_closure 0%Z (limited_call cb n).

(** The limit that [===] can meet: an integer a counter in [0, 2^53]
    reaches. *)
Definition effective_limit (n : jsval) : option Z :=
  match int_value n with
  | Some k => if ((0 <=? k) && (k <=? 2 ^ 53))%Z then Some k else None
  | None => None
  end.

(** ** The abstract specification (spec.md, section 4.1)

    The contract of the wrapper, with the counter replaced by the budget of
    calls left ([None]: no budget, the limit is never met). A call on an
    exhausted budget returns [null] without calling the callback; any
    other call spends one unit and calls it. *)
Definition budget_call (cb : callback) (args : list jsval) : js (option nat) jsval :=
  b <- getl ;;
  match b with
  | Some O => ret JNull
  | Some (S m) => putl (Some m) ;; invoke cb args
  | None => invoke cb args
  end.

Definition initial_budget (n : jsval) : option nat := Z.to_nat <$> effective_limit n.

(** The counter [c] of the code and the budget [b] of the specification. *)
Definition limit_rel (n : jsval) (c : Z) (b : option nat) : Prop :=
  (0 <= c <= 2 ^ 53)%Z /\
  match effective_limit n with
  | Some k => (c <= k)%Z /\ b = Some (Z.to_nat (k - c))
  | None => b = None
  end.

(** ** One call *)

Lemma limited_call_eq cb n args c h :
  limited_call cb n args (c, h) =
    if strict_eq (JNum c) n then (Normal JNull, (c, h), [])
    else (( cb args h).1, (js_incr c, (cb args h).2), [args]).
Proof.
  unfold limited_call; unfold_js. cbn -[strict_eq].
  destruct (strict_eq (JNum c) n); [done|]. destruct (cb args h); reflexivity.
Qed.

Lemma js_incr_bound c : (0 <= c <= 2 ^ 53 -> 0 <= js_incr c <= 2 ^ 53)%Z.
Proof. unfold js_incr. destruct (Z.ltb_spec c (2 ^ 53)); lia. Qed.

Lemma js_incr_below c : (c < 2 ^ 53 -> js_incr c = c + 1)%Z.
Proof. unfold js_incr. destruct (Z.ltb_spec c (2 ^ 53)); lia. Qed.

Lemma effective_limit_Some n k :
  effective_limit n = Some k ->
  (0 <= k <= 2 ^ 53)%Z /\ forall c, strict_eq (JNum c) n = Z.eqb c k.
Proof.
  unfold effective_limit. destruct (int_value n) as [k'|] eqn:Hi; [|done].
  destruct (Z.leb_spec 0 k'), (Z.leb_spec k' (2 ^ 53)); cbn -[strict_eq]; intros; simplify_eq.
  split; [lia|]. intros c. apply Bool.eq_iff_eq_true.
  rewrite strict_eq_int, Hi, Z.eqb_eq. split; congruence.
Qed.

(** A limit outside the counter's reach is never met by [===]. *)
Lemma effective_limit_None n c :
  effective_limit n = None -> (0 <= c <= 2 ^ 53)%Z -> strict_eq (JNum c) n = false.
Proof.
  intros Hn Hc. destruct (strict_eq (JNum c) n) eqn:Heq; [|done].
  apply strict_eq_int in Heq. unfold effective_limit in Hn. rewrite Heq in Hn.
  destruct (Z.leb_spec 0 c), (Z.leb_spec c (2 ^ 53)); simpl in Hn; try done; lia.
Qed.


Lemma budget_call_eq cb args b h :
  budget_call cb args (b, h) =
    match b with
    | Some O => (Normal JNull, (b, h), [])
    | Some (S m) => ((cb args h).1, (Some m, (cb args h).2), [args])
    | None => ((cb args h).1, (None, (cb args h).2), [args])
    end.
Proof.
  unfold budget_call; unfold_js. simpl.
  destruct b as [[|m]|]; simpl; [done|..]; by destruct (cb args h).
Qed.

(** One call of the code and one of the specification agree. *)
Lemma limited_call_refines cb n args c b h :
  limit_rel n c b ->
  let '(r1, (c', h1), t1) := limited_call cb n args (c, h) in
  let '(r2, (b', h2), t2) := budget_call cb args (b, h) in
  r1 = r2 /\ h1 = h2 /\ t1 = t2 /\ limit_rel n c' b'.
Proof.
  intros [Hc Hrel]. rewrite limited_call_eq, budget_call_eq. unfold limit_rel.
  destruct (effective_limit n) as [k|] eqn:He.
  - destruct (effective_limit_Some _ _ He) as [Hk Heq].
    destruct Hrel as [Hck ->]. rewrite Heq.
    destruct (Z.eqb_spec c k) as [->|Hne].
    + rewrite Z.sub_diag. simpl. split_and!; try done; lia.
    + replace (Z.to_nat (k - c)) with (S (Z.to_nat (k - js_incr c))).
      2: { rewrite js_incr_below by lia. lia. }
      split_and!; try done; rewrite ?js_incr_below; lia.
  - subst b. rewrite effective_limit_None by done.
    pose proof (js_incr_bound c Hc). split_and!; try done; lia.
Qed.

(** ** Runs below an effective limit *)

Lemma limited_run_budget cb k calls c h :
  (0 <= c <= k)%Z -> (k <= 2 ^ 53)%Z ->
  let '(rs, s, t) := run_calls (limited_call cb (JNum k)) calls (c, h) in
  t = take (Z.to_nat (k - c)) calls /\
  drop (Z.to_nat (k - c)) rs = replicate (length calls - Z.to_nat (k - c)) (Normal JNull) /\
  s.1 = Z.min k (c + Z.of_nat (length calls))%Z.
Proof.
  intros Hc Hk. revert c h Hc.
  induction calls as [|args rest IH]; intros c h Hc; simpl.
  { rewrite take_nil, drop_nil. split_and!; [done|done|lia]. }
  rewrite limited_call_eq, strict_eq_num.
  destruct (Z.eqb_spec c k) as [->|Hne].
  - specialize (IH k h ltac:(lia)).
    destruct (run_calls _ rest (k, h)) as [[rs s] t] eqn:Hr.
    rewrite Z.sub_diag in *. simpl in *. destruct IH as (-> & Hd & Hs).
    rewrite take_0 in *. rewrite drop_0 in *. split_and!; [done| |lia].
    rewrite Hd. simpl. by rewrite Nat.sub_0_r.
  - rewrite js_incr_below by lia.
    specialize (IH (c + 1)%Z (cb args h).2 ltac:(lia)).
    destruct (run_calls _ rest _) as [[rs s] t] eqn:Hr. destruct IH as (Ht & Hd & Hs).
    replace (Z.to_nat (k - c)) with (S (Z.to_nat (k - (c + 1)))) by lia.
    simpl. rewrite Ht, Hd. split_and!; [done|done|lia].
Qed.

(** The exhausted state absorbs every call. *)
Lemma limited_run_exhausted cb k calls h :
  run_calls (limited_call cb (JNum k)) calls (k, h) =
    (replicate (length calls) (Normal JNull), (k, h), []).
Proof.
  induction calls as [|args rest IH]; [done|]. simpl.
  rewrite limited_call_eq, strict_eq_num, Z.eqb_refl, IH. done.
Qed.

(** ** Runs with a limit [===] never meets *)

Lemma limited_run_unbounded cb n calls c h :
  (forall c', (c <= c' <= 2 ^ 53)%Z -> strict_eq (JNum c') n = false) ->
  (0 <= c <= 2 ^ 53)%Z ->
  (run_calls (limited_call cb n) calls (c, h)).2 = calls.
Proof.
  revert c h. induction calls as [|args rest IH]; intros c h Hn Hc; [done|].
  simpl. rewrite limited_call_eq, Hn by lia.
  destruct (run_calls _ rest _) as [[rs s] t] eqn:Hr.
  specialize (IH (js_incr c) (cb args h).2). rewrite Hr in IH. simpl in IH.
  rewrite IH; [done| |by apply js_incr_bound].
  intros c' Hc'. apply Hn. unfold js_incr in Hc'.
  destruct (Z.ltb_spec c (2 ^ 53)); lia.
Qed.

(** ** Properties of the limiter *)

(** C1. With a limit [k] that is an integer in [0, 2^53], the callback
    runs on exactly the first [k] calls, with their arguments in order,
    and every later call returns [null]. *)
Theorem limiter_runs_first_n cb k calls h :
  (0 <= k <= 2 ^ 53)%Z ->
  let '(rs, _, t) := run_closure (limitFunctionCallCount cb (JNum k)) calls h in
  t = take (Z.to_nat k) calls /\
  drop (Z.to_nat k) rs = replicate (length calls - Z.to_nat k) (Normal JNull).
Proof.
  intros Hk. unfold run_closure. simpl.
  pose proof (limited_run_budget cb k calls 0 h ltac:(lia) ltac:(lia)) as Hb.
  rewrite Z.sub_0_r in Hb.
  destruct (run_calls _ calls _) as [[rs s] t]. tauto.
Qed.

(** C3. Any other limit is never met: a negative or too large number,
    NaN, a string such as "2", [undefined]; the callback then runs on
    every call. *)
Theorem limiter_unlimited cb n calls h :
  effective_limit n = None ->
  (run_closure (limitFunctionCallCount cb n) calls h).2 = calls.
Proof.
  intros Hn. unfold run_closure. simpl. apply limited_run_unbounded; [|lia].
  intros c' Hc'. by apply effective_limit_None.
Qed.

(** C4. Invariant of every reachable state of the closure: the counter
    stays in [0, 2^53], and it never passes a non-negative limit whose
    value is an integer, however written ([2], [2.0], [-0]). A limit
    without an integral value ([2.5], [Infinity]) is never met, and only
    [2^53] bounds the counter then. *)
Theorem limiter_counter_invariant cb n h0 c h :
  reachable (limited_call cb n) (0%Z, h0) (c, h) ->
  (0 <= c <= 2 ^ 53)%Z /\ (forall k, int_value n = Some k -> (0 <= k)%Z -> (c <= k)%Z).
Proof.
  intros Hr.
  apply (reachable_invariant (limited_call cb n)
    (fun s => (0 <= s.1 <= 2 ^ 53)%Z /\
              forall k, int_value n = Some k -> (0 <= k)%Z -> (s.1 <= k)%Z)
    (0%Z, h0) (c, h)); [|clear Hr|done].
  { simpl. split; [lia|]. intros. lia. }
  intros [c' h'] args [Hb Hk]. rewrite limited_call_eq.
  destruct (strict_eq (JNum c') n) eqn:Heq; cbn [fst snd] in *; [done|].
  split; [by apply js_incr_bound|]. intros k Hn Hk0.
  specialize (Hk k Hn Hk0). assert (c' <> k) as Hne.
  { intros ->. apply Bool.not_true_iff_false in Heq. apply Heq, strict_eq_int, Hn. }
  unfold js_incr. destruct (Z.ltb_spec c' (2 ^ 53)); lia.
Qed.

(** C6. The counter is incremented before the callback runs: a call
    whose callback throws propagates the exception and has spent one
    unit of budget. *)
Theorem limiter_throw_spends_budget cb n args c h e h' :
  cb args h = (Abrupt e, h') -> strict_eq (JNum c) n = false ->
  limited_call cb n args (c, h) = (Abrupt e, (js_incr c, h'), [args]).
Proof. intros Hcb Hn. by rewrite limited_call_eq, Hn, Hcb. Qed.

(** C2. Refinement: the closure returned by [limitFunctionCallCount cb n]
    implements the budget specification started at [initial_budget n]:
    over any sequence of calls both give the same results, the same heap
    and the same callback calls. *)
Theorem limiter_refines_budget cb n calls h :
  let '(rs1, (_, h1), t1) := run_closure (limitFunctionCallCount cb n) calls h in
  let '(rs2, (_, h2), t2) := run_calls (budget_call cb) calls (initial_budget n, h) in
  rs1 = rs2 /\ h1 = h2 /\ t1 = t2.
Proof.
  assert (limit_rel n 0 (initial_budget n)) as H0.
  { unfold limit_rel, initial_budget. split; [lia|].
    destruct (effective_limit n) as [k|] eqn:He; [|done].
    destruct (effective_limit_Some _ _ He) as [Hk _]. rewrite Z.sub_0_r. split; [lia|done]. }
  pose proof (run_calls_simulation (limited_call cb n) (budget_call cb) (fun _ => True)
    (fun c b _ => limit_rel n c b) (fun args c b h' _ HR => limited_call_refines cb n args c b h' HR)
    calls 0%Z (initial_budget n) h (Forall_true _ calls (fun _ => I)) H0) as Hsim.
  unfold run_closure. simpl.
  destruct (run_calls (limited_call cb n) calls _) as [[rs1 [c1 h1]] t1].
  destruct (run_calls (budget_call cb) calls _) as [[rs2 [b2 h2]] t2]. tauto.
Qed.

(** C5. Liveness (eventually always): with a limit [k] in [0, 2^53],
    every run of at least [k] calls ends in the exhausted state, whose
    counter is [k]; from there on every further call returns [null],
    calls nothing and leaves the state as it is. *)
Theorem limiter_eventually_exhausted cb k calls more h :
  (0 <= k <= 2 ^ 53)%Z -> Z.to_nat k <= length calls ->
  let '(_, (c, h'), _) := run_closure (limitFunctionCallCount cb (JNum k)) calls h in
  c = k /\
  run_calls (limited_call cb (JNum k)) more (c, h') =
    (replicate (length more) (Normal JNull), (c, h'), []).
Proof.
  intros Hk Hlen. unfold run_closure. simpl.
  pose proof (limited_run_budget cb k calls 0 h ltac:(lia) ltac:(lia)) as Hb.
  destruct (run_calls _ calls _) as [[rs [c h']] t]. destruct Hb as (_ & _ & Hc).
  simpl in Hc. assert (c = k) as -> by lia. split; [done|]. apply limited_run_exhausted.
Qed.

(** ** Witnesses *)

(** A callback that returns 1 and leaves the heap alone. *)
Definition const_one : callback := fun _ h => (Normal (JNum 1), h).

(** A callback that always throws the string "boom". *)
Definition boom : callback := fun _ h => (Abrupt (Thrown (JStr (lit "boom"))), h).

(** Scenario 1 of the specification: a limit of 2 and five calls. *)
Definition five_calls : list (list jsval) := [[]; []; []; []; []].

Lemma limiter_runs_first_n_witness :
  (0 <= 2 <= 2 ^ 53)%Z /\
  let '(rs, _, t) := run_closure (limitFunctionCallCount const_one (JNum 2)) five_calls empty_heap in
  t = take (Z.to_nat 2) five_calls /\
  drop (Z.to_nat 2) rs = replicate (length five_calls - Z.to_nat 2) (Normal JNull).
Proof. split; [lia|]. apply limiter_runs_first_n. lia. Defined.

(** A string limit "2" never stops the callback. *)
Lemma limiter_unlimited_witness :
  (run_closure (limitFunctionCallCount const_one (JStr (lit "2"))) [[]; []; []] empty_heap).2
  = [[]; []; []].
Proof. apply limiter_unlimited. reflexivity. Defined.

Lemma limiter_counter_invariant_witness :
  (0 <= 1 <= 2 ^ 53)%Z /\
  (forall k, int_value (JDec 10 (-1)) = Some k -> (0 <= k)%Z -> (1 <= k)%Z).
Proof.
  apply (limiter_counter_invariant const_one (JDec 10 (-1)) empty_heap 1%Z empty_heap).
  apply (reach_step _ _ (0%Z, empty_heap) [] (Normal (JNum 1)) _ [[]]);
    [apply reach_init | reflexivity].
Defined.

Lemma limiter_throw_spends_budget_witness :
  limited_call boom (JNum 2) [] (0%Z, empty_heap)
  = (Abrupt (Thrown (JStr (lit "boom"))), (1%Z, empty_heap), [[]]).
Proof. apply limiter_throw_spends_budget; reflexivity. Defined.

Lemma limiter_eventually_exhausted_witness :
  let '(_, (c, h'), _) := run_closure (limitFunctionCallCount const_one (JNum 2)) five_calls empty_heap in
  c = 2%Z /\
  run_calls (limited_call const_one (JNum 2)) [[]; [JNum 1]] (c, h') =
    (replicate 2 (Normal JNull), (c, h'), []).
Proof. apply (limiter_eventually_exhausted const_one 2 five_calls [[]; [JNum 1]] empty_heap); simpl; lia. Defined.




End CallLimiter.
