(* ===== verification/Memo.v ===== *)
(** * The memoizer: [cacheFunction] (src/src/challenges.js, lines 34-52)

<<
const cacheFunction = cb => {
  const cache = {};
  return (...args) => {
    if (!(Object.prototype.hasOwnProperty.call(cache, args))) {
      const result = cb(args);
      cache[args] = result;
      return result;
    }
    return cache[args];
  };
};
>>
    The closure state is the object [cache]: its own properties, keyed by
    strings, and its prototype link (initially [Object.prototype]). The
    rest parameter [args] is a new array on the heap at every call; its
    key is [ToPropertyKey(args)], computed three times by the code: for
    [hasOwnProperty], for the assignment after [cb] ran, and for the read.
    The callback receives the array itself as its single argument.
    [memo_spec_call] is the contract of spec.md 4.2, a finite map from
    keys to results with the key derived once; the closure refines it for
    callbacks that only allocate, away from the key "__proto__". *)

From S2P Require Import Prelude JsNumber JsValue JsString JsMonad.

Module Memoizer.

(** ** The cache object *)

(** Where the prototype chain of [cache] goes. *)
Inductive proto_link :=
| ProtoObject            (* Object.prototype, as for every object literal *)
| ProtoNull
| ProtoRef (r : nat).

Record cache_obj := mk_cache { own : gmap jsstr jsval; proto : proto_link }.

(** [const cache = {}] (line 43). *)
Definition empty_cache : cache_obj := mk_cache ∅ ProtoObject.

Definition proto_key : jsstr := lit "__proto__".

(** Whether looking "__proto__" up along the prototype chain reaches the
    accessor of [Object.prototype] (no object on the way has an own
    property of that name; arrays have only indices and [length]). *)
Definition reaches_proto_setter (h : heap) (p : proto_link) : bool :=
  match p with
  | ProtoObject => true
  | ProtoNull => false
  | ProtoRef r =>
      match hobjs h !! r with
      | Some (OPlain ps) => negb (bool_decide (proto_key ∈ map fst ps))
      | _ => true
      end
  end.

(** The assignment [cache[k] = v] (OrdinarySet, sloppy mode). An own
    property is overwritten; a missing one is created, except that the
    key "__proto__" reaching the inherited accessor calls its setter,
    which changes the prototype to an object or [null] and ignores any
    other value, and creates no own property. *)
Definition cache_set (h : heap) (c : cache_obj) (k : jsstr) (v : jsval) : cache_obj :=
  match own c !! k with
  | Some _ => mk_cache (<[k := v]> (own c)) (proto c)
  | None =>
      if bool_decide (k = proto_key) && reaches_proto_setter h (proto c) then
        match v with
        | JNull => mk_cache (own c) ProtoNull
        | JRef r => mk_cache (own c) (ProtoRef r)
        | _ => c
        end
      else mk_cache (<[k := v]> (own c)) (proto c)
  end.

(** The read [cache[k]] of an own property. *)
Definition cache_get (c : cache_obj) (k : jsstr) : jsval :=
  match own c !! k with Some v => v | None => JUndefined end.

(** ** The wrapped function *)

(** [ToPropertyKey(args)] throws a [TypeError] when the join meets a
    Symbol; on a well-formed heap nothing else stops it ([to_str_enough]). *)
Definition key_of {L} (v : jsval) : js L jsstr :=
  h <- get_heap ;;
  match to_property_key h v with
  | Some k => ret k
  | None => throw TypeError
  end.

(** The returned arrow function (lines 44-51). *)
Definition memo_call (cb : callback) (args : list jsval) : js cache_obj jsval :=
  a <- new_obj (OArray (map Some args)) ;;
  k <- key_of (JRef a) ;;
  c <- getl ;;
  match own c !! k with
  | None =>
      result <- invoke cb [JRef a] ;;
      k' <- key_of (JRef a) ;;
      h <- get_heap ;;
      c' <- getl ;;
      putl (cache_set h c' k' result) ;;
      ret result
  | Some _ =>
      k'' <- key_of (JRef a) ;;
      c'' <- getl ;;
      ret (cache_get c'' k'')
  end.

(** The factory (lines 34-43). *)
Definition cacheFunction (cb : callback) : closure cache_obj :=
  mk_closure empty_cache (memo_call cb).

(** The key of an argument list: that of a new array holding it. *)
Definition args_key (h : heap) (args : list jsval) : option jsstr :=
  let '(a, h1) := alloc (OArray (map Some args)) h in to_property_key h1 (JRef a).

(** ** The abstract specification (spec.md, section 4.2)

    The result store as a finite map from keys to results. The key is
    derived once from the argument list, before the callback runs; a miss
    calls the callback with the argument array and stores its result, a
    hit returns the stored result. *)
Definition memo_spec_call (cb : callback) (args : list jsval) : js (gmap jsstr jsval) jsval :=
  h <- get_heap ;;
  a <- new_obj (OArray (map Some args)) ;;
  match list_key h args with
  | None => throw TypeError
  | Some k =>
      m <- getl ;;
      match m !! k with
      | Some v => ret v
      | None => v <- invoke cb [JRef a] ;; putl (<[k := v]> m) ;; ret v
      end
  end.

(** ** One call *)

Lemma memo_call_eq cb args c h :
  memo_call cb args (c, h) =
  let '(a, h1) := alloc (OArray (map Some args)) h in
  match to_property_key h1 (JRef a) with
  | None => (Abrupt TypeError, (c, h1), [])
  | Some k =>
      match own c !! k with
      | None =>
          let '(r, h2) := cb [JRef a] h1 in
          match r with
          | Abrupt e => (Abrupt e, (c, h2), [[JRef a]])
          | Normal v =>
              match to_property_key h2 (JRef a) with
              | None => (Abrupt TypeError, (c, h2), [[JRef a]])
              | Some k' => (Normal v, (cache_set h2 c k' v, h2), [[JRef a]])
              end
          end
      | Some _ => (Normal (cache_get c k), (c, h1), [])
      end
  end.
Proof.
  unfold memo_call, key_of; unfold_js.
  cbn -[to_property_key cache_set cache_get alloc].
  destruct (alloc _ h) as [a h1].
  destruct (to_property_key h1 (JRef a)) as [k|] eqn:Hk; simpl; [|done].
  destruct (own c !! k) as [v|]; simpl; [by rewrite Hk|].
  destruct (cb [JRef a] h1) as [[v|e] h2]; simpl; [|done].
  destruct (to_property_key h2 (JRef a)); done.
Qed.

(** ** The key and the cache *)

Lemma alloc_args_wf h args :
  heap_wf h -> Forall (val_ok h) args -> heap_wf (alloc (OArray (map Some args)) h).2.
Proof. intros Hwf Hargs. apply alloc_wf; [done|]. cbn [obj_vals]. by rewrite omap_id_map_Some. Qed.

(** The fresh argument array: the heap stays well formed and only grows,
    and the array is the well-formed argument the callback receives. *)
Lemma alloc_args_ok h args :
  heap_wf h -> Forall (val_ok h) args ->
  let h1 := (alloc (OArray (map Some args)) h).2 in
  heap_wf h1 /\ heap_extends h h1 /\ Forall (val_ok h1) [JRef (hnext h)].
Proof.
  intros Hwf Hargs. split_and!; [by apply alloc_args_wf|by apply alloc_extends|].
  repeat constructor. intros r [= <-]. eexists. apply lookup_insert_eq.
Qed.

(** The key of the argument array is the join of the arguments. *)
Lemma args_key_list h args :
  heap_wf h -> Forall (val_ok h) args -> args_key h args = list_key h args.
Proof.
  intros Hwf Hargs. unfold args_key. simpl.
  apply fresh_array_key; [done|by apply alloc_args_wf|by apply alloc_extends|done|done|].
  apply lookup_insert_eq.
Qed.

Lemma cache_set_keeps h c k v x :
  is_Some (own c !! x) -> is_Some (own (cache_set h c k v) !! x).
Proof.
  intros Hx. unfold cache_set.
  destruct (own c !! k); [simpl; rewrite lookup_insert_is_Some'; by right|].
  destruct (_ && _); [destruct v; simpl; done|].
  simpl. rewrite lookup_insert_is_Some'. by right.
Qed.

Lemma cache_set_stores h c k v :
  k <> proto_key -> own (cache_set h c k v) !! k = Some v.
Proof.
  intros Hk. unfold cache_set.
  destruct (own c !! k); [apply lookup_insert_eq|].
  rewrite bool_decide_false by done. apply lookup_insert_eq.
Qed.

(** ** One call of a well-behaved callback *)

Lemma memo_call_pure cb args c h :
  cb_extends cb -> cb_total cb -> heap_wf h -> Forall (val_ok h) args ->
  let '(r, (c', h'), t) := memo_call cb args (c, h) in
  heap_wf h' /\ heap_extends h h' /\
  match list_key h args with
  | None => r = Abrupt TypeError /\ c' = c /\ t = []
  | Some k =>
      match own c !! k with
      | Some v => r = Normal v /\ c' = c /\ t = []
      | None => exists v, r = Normal v /\ c' = cache_set h' c k v /\ t = [[JRef (hnext h)]] /\
          hobjs h' !! hnext h = Some (OArray (map Some args)) /\
          cb [JRef (hnext h)] (alloc (OArray (map Some args)) h).2 = (Normal v, h')
      end
  end.
Proof.
  intros Hcb Htot Hwf Hargs.
  pose proof (args_key_list h args Hwf Hargs) as Hak. unfold args_key in Hak. simpl in Hak.
  rewrite memo_call_eq. simpl. rewrite Hak.
  destruct (alloc_args_ok h args Hwf Hargs) as (Hwf1 & Hext1 & Harg1).
  simpl in Hwf1, Hext1, Harg1. set (h1 := mk_heap _ _) in *.
  destruct (list_key h args) as [k|] eqn:Hk; [|by split_and!].
  destruct (own c !! k) as [v|] eqn:Hc.
  { split_and!; try done. unfold cache_get. by rewrite Hc. }
  destruct (Hcb _ _ Hwf1 Harg1) as (Hext2 & Hwf2 & _).
  destruct (Htot [JRef (hnext h)] h1) as [v Hv].
  destruct (cb [JRef (hnext h)] h1) as [r h2] eqn:Hcbr. simpl in *. subst r.
  assert (to_property_key h1 (JRef (hnext h)) = Some k) as Hk1 by exact Hak.
  rewrite (to_property_key_extends _ _ _ _ Hext2 Hk1).
  split_and!; [done|by etrans|]. exists v. split_and!; try done.
  eapply heap_extends_lookup; [exact Hext2|]. apply lookup_insert_eq.
Qed.

(** ** Refinement of the specification, one call *)

Lemma memo_spec_call_eq cb args m h :
  memo_spec_call cb args (m, h) =
  let '(a, h1) := alloc (OArray (map Some args)) h in
  match list_key h args with
  | None => (Abrupt TypeError, (m, h1), [])
  | Some k =>
      match m !! k with
      | Some v => (Normal v, (m, h1), [])
      | None =>
          let '(r, h2) := cb [JRef a] h1 in
          match r with
          | Normal v => (Normal v, (<[k := v]> m, h2), [[JRef a]])
          | Abrupt e => (Abrupt e, (m, h2), [[JRef a]])
          end
      end
  end.
Proof.
  unfold memo_spec_call; unfold_js.
  cbn -[list_key alloc]. destruct (alloc _ h) as [a h1].
  destruct (list_key h args) as [k|]; simpl; [|done].
  destruct (m !! k); simpl; [done|]. by destruct (cb [JRef a] h1) as [[v|e] h2].
Qed.

(** Away from "__proto__", the cache object is a finite map. *)
Lemma cache_set_own h c k v :
  k <> proto_key -> own (cache_set h c k v) = <[k := v]> (own c).
Proof.
  intros Hk. unfold cache_set. destruct (own c !! k); [done|].
  by rewrite bool_decide_false.
Qed.

Lemma memo_call_refines cb args c h :
  cb_extends cb -> heap_wf h -> Forall (val_ok h) args ->
  list_key h args <> Some proto_key ->
  let '(r1, (c', h1), t1) := memo_call cb args (c, h) in
  let '(r2, (m', h2), t2) := memo_spec_call cb args (own c, h) in
  r1 = r2 /\ h1 = h2 /\ t1 = t2 /\ own c' = m' /\ heap_wf h1 /\ heap_extends h h1.
Proof.
  intros Hcb Hwf Hargs Hproto.
  pose proof (args_key_list h args Hwf Hargs) as Hak. unfold args_key in Hak. simpl in Hak.
  rewrite memo_call_eq, memo_spec_call_eq. simpl. rewrite Hak.
  destruct (alloc_args_ok h args Hwf Hargs) as (Hwf1 & Hext1 & Harg1).
  simpl in Hwf1, Hext1, Harg1. set (h1 := mk_heap _ _) in *.
  destruct (list_key h args) as [k|] eqn:Hk; [|by split_and!].
  destruct (own c !! k) as [v|] eqn:Hc.
  { unfold cache_get. rewrite Hc. by split_and!. }
  destruct (Hcb _ _ Hwf1 Harg1) as (Hext2 & Hwf2 & _).
  destruct (cb [JRef (hnext h)] h1) as [[v|e] h2] eqn:Hcbr; simpl in *;
    [|split_and!; first [done | by etrans]].
  assert (to_property_key h1 (JRef (hnext h)) = Some k) as Hk1 by exact Hak.
  rewrite (to_property_key_extends _ _ _ _ Hext2 Hk1).
  rewrite cache_set_own by congruence. split_and!; first [done | by etrans].
Qed.

(** ** Runs: the keys of the callback calls *)

(** The key of one callback call: that of the array it received. *)
Definition event_key (h : heap) (e : event) : option jsstr :=
  match e with [JRef a] => to_property_key h (JRef a) | _ => None end.

(** The invariant of a run from the heap [h0] with trace [tr]: the heap is
    well formed and extends [h0]; every call so far has a key, which is
    "__proto__" or cached; the keys other than "__proto__" are distinct. *)
Definition memo_inv (h0 : heap) (s : cache_obj * heap) (tr : list event) : Prop :=
  heap_wf s.2 /\ heap_extends h0 s.2 /\
  Forall (fun e => exists k, event_key s.2 e = Some k /\
                             (k = proto_key \/ is_Some (own s.1 !! k))) tr /\
  NoDup (filter (fun o => o <> Some proto_key) (map (event_key s.2) tr)).

Lemma event_keys_extends h h' (tr : list event) :
  heap_extends h h' -> Forall (fun e => is_Some (event_key h e)) tr ->
  map (event_key h') tr = map (event_key h) tr.
Proof.
  intros Hext Htr. apply list_eq_Forall2, Forall2_fmap, Forall_Forall2_diag.
  eapply Forall_impl; [exact Htr|]. intros [|[]] [k Hk]; try done.
  destruct l; [|done]. simpl in *. rewrite Hk. by eapply to_property_key_extends.
Qed.

Lemma event_key_extends h h' e k :
  heap_extends h h' -> event_key h e = Some k -> event_key h' e = Some k.
Proof.
  intros Hext. destruct e as [|[] []]; try done. simpl. by apply to_property_key_extends.
Qed.

(** The keys of the earlier calls keep their entries when the heap grows
    and the cache only gains entries. *)
Lemma memo_keys_step h h' (c c' : cache_obj) (tr : list event) :
  heap_extends h h' -> (forall x, is_Some (own c !! x) -> is_Some (own c' !! x)) ->
  Forall (fun e => exists k, event_key h e = Some k /\ (k = proto_key \/ is_Some (own c !! k))) tr ->
  Forall (fun e => exists k, event_key h' e = Some k /\ (k = proto_key \/ is_Some (own c' !! k))) tr.
Proof.
  intros Hext Hc Htr. eapply Forall_impl; [exact Htr|]. intros e (k & Hk & Hck).
  exists k. split; [by eapply event_key_extends|]. naive_solver.
Qed.

Lemma memo_inv_step h0 cb args c h tr :
  cb_extends cb -> cb_total cb -> Forall (val_ok h0) args -> memo_inv h0 (c, h) tr ->
  let '(_, s, t) := memo_call cb args (c, h) in memo_inv h0 s (tr ++ t).
Proof.
  intros Hcb Htot Hargs0 (Hwf & Hext0 & Hkeys & Hnd). simpl in *.
  assert (Forall (val_ok h) args) as Hargs by eauto with js.
  pose proof (memo_call_pure cb args c h Hcb Htot Hwf Hargs) as Hrun.
  destruct (memo_call cb args (c, h)) as [[r [c' h']] t].
  destruct Hrun as (Hwf' & Hext' & Hcase).
  assert (map (event_key h') tr = map (event_key h) tr) as Hmap.
  { apply event_keys_extends; [done|]. eapply Forall_impl; [exact Hkeys|].
    intros e (k0 & -> & _). eauto. }
  destruct (list_key h args) as [k|] eqn:Hk; cycle 1.
  { destruct Hcase as (_ & -> & ->). rewrite app_nil_r. unfold memo_inv. simpl.
    split_and!; [done|by etrans|apply (memo_keys_step h h' c c); auto|by rewrite Hmap]. }
  unfold memo_inv. simpl. split_and!; [done|by etrans| |].
  - destruct (own c !! k) as [v|] eqn:Hc.
    + destruct Hcase as (-> & -> & ->). rewrite app_nil_r. by eapply memo_keys_step.
    + destruct Hcase as (v & -> & -> & -> & Hlook & _).
      apply Forall_app. split; [eapply (memo_keys_step h h' c); eauto using cache_set_keeps|].
      repeat constructor. exists k. simpl.
      rewrite (fresh_array_key h h' (hnext h) args), Hk; [|done..|lia|done|done].
      split; [done|]. destruct (decide (k = proto_key)); [by left|right].
      rewrite cache_set_stores; eauto.
  - rewrite map_app, Hmap, filter_app.
    destruct (own c !! k) as [v|] eqn:Hc.
    + destruct Hcase as (_ & _ & ->). simpl. by rewrite app_nil_r.
    + destruct Hcase as (v & _ & _ & -> & Hlook & _). simpl.
      rewrite (fresh_array_key h h' (hnext h) args), Hk; [|done..|lia|done|done].
      rewrite filter_cons, filter_nil. case_decide as Hp; [|by rewrite app_nil_r].
      apply NoDup_app. split_and!; [done| |apply NoDup_singleton].
      intros o Ho. rewrite list_elem_of_singleton. intros ->.
      apply list_elem_of_filter in Ho as [_ Ho]. apply list_elem_of_fmap in Ho as (e & He & Hin).
      eapply Forall_forall in Hkeys as (k0 & Hk0 & Hc0); [|done].
      rewrite Hk0 in He. simplify_eq. destruct Hc0 as [->|[? Hc0]]; congruence.
Qed.

Lemma memo_inv_run h0 cb calls c h tr :
  cb_extends cb -> cb_total cb -> Forall (Forall (val_ok h0)) calls -> memo_inv h0 (c, h) tr ->
  let '(_, s, t) := run_calls (memo_call cb) calls (c, h) in memo_inv h0 s (tr ++ t).
Proof.
  intros Hcb Htot. revert c h tr.
  induction calls as [|args rest IH]; intros c h tr Hcalls Hinv; simpl.
  { by rewrite app_nil_r. }
  apply Forall_cons in Hcalls as [Hargs Hrest].
  pose proof (memo_inv_step h0 cb args c h tr Hcb Htot Hargs Hinv) as Hstep.
  destruct (memo_call cb args (c, h)) as [[r1 [c1 h1]] t1].
  specialize (IH c1 h1 (tr ++ t1) Hrest Hstep).
  destruct (run_calls _ rest _) as [[rs s2] t2]. by rewrite app_assoc.
Qed.

(** ** Properties of the memoizer *)

(** C8. For a callback that neither changes existing objects nor throws,
    every callback call has a key, and no two calls share a key other
    than "__proto__": the callback runs at most once per key, the key
    "__proto__" excepted (on that key it may run at every call, C16). *)
Theorem memo_at_most_once_per_key cb calls h0 :
  cb_extends cb -> cb_total cb -> heap_wf h0 -> Forall (Forall (val_ok h0)) calls ->
  let '(_, (_, hf), t) := run_closure (cacheFunction cb) calls h0 in
  Forall (fun e => is_Some (event_key hf e)) t /\
  NoDup (filter (fun o => o <> Some proto_key) (map (event_key hf) t)).
Proof.
  intros Hcb Htot Hwf Hcalls. unfold run_closure. simpl.
  assert (memo_inv h0 (empty_cache, h0) []) as H0.
  { split_and!; simpl; try done; try reflexivity; constructor. }
  pose proof (memo_inv_run h0 cb calls empty_cache h0 [] Hcb Htot Hcalls H0) as Hrun.
  destruct (run_calls _ calls _) as [[rs [c hf]] t]. destruct Hrun as (_ & _ & Hk & Hnd). simpl in Hk, Hnd.
  split; [|done]. eapply Forall_impl; [exact Hk|]. intros e (k & -> & _). eauto.
Qed.

(** C10. A call whose key is an own property of the cache returns the
    stored value without calling the callback and without changing the
    cache, whatever the arguments were: argument lists with the same key
    are not told apart. *)
Theorem memo_hit cb args c h k v :
  own c !! k = Some v -> args_key h args = Some k ->
  memo_call cb args (c, h) = (Normal v, (c, (alloc (OArray (map Some args)) h).2), []).
Proof.
  intros Hc Hk. unfold args_key in Hk. rewrite memo_call_eq. simpl in *.
  rewrite Hk, Hc. unfold cache_get. by rewrite Hc.
Qed.

(** C11. For a callback that changes no existing object, a call whose key
    is not cached calls the callback once, with the new argument array as
    its single argument, and returns its result, and the cache becomes
    [cache_set h2 c k v], the assignment [cache[args] = result]: an own
    property [k] holding the result, except for the key "__proto__",
    whose assignment goes to the inherited setter. *)
Theorem memo_miss cb args c h k v h2 :
  heap_wf h -> Forall (val_ok h) args -> cb_extends cb ->
  list_key h args = Some k -> own c !! k = None ->
  cb [JRef (hnext h)] (alloc (OArray (map Some args)) h).2 = (Normal v, h2) ->
  memo_call cb args (c, h) = (Normal v, (cache_set h2 c k v, h2), [[JRef (hnext h)]]) /\
  hobjs (alloc (OArray (map Some args)) h).2 !! hnext h = Some (OArray (map Some args)).
Proof.
  intros Hwf Hargs Hcb Hk Hc Hv. split; [|apply lookup_insert_eq].
  pose proof (args_key_list h args Hwf Hargs) as Hak. unfold args_key in Hak. simpl in *.
  rewrite memo_call_eq. simpl. rewrite Hak, Hk, Hc, Hv.
  destruct (alloc_args_ok h args Hwf Hargs) as (Hwf1 & _ & Harg1).
  destruct (Hcb _ _ Hwf1 Harg1) as (Hext2 & _ & _).
  simpl in Hext2. rewrite Hv in Hext2. simpl in Hext2.
  by rewrite (to_property_key_extends _ _ _ k Hext2) by (rewrite Hak; exact Hk).
Qed.

(** C12. A call whose callback throws propagates the exception and leaves
    the cache as it was, so the next call with the same key runs the
    callback again. *)
Theorem memo_throw_not_cached cb args c h k e h2 :
  args_key h args = Some k -> own c !! k = None ->
  cb [JRef (hnext h)] (alloc (OArray (map Some args)) h).2 = (Abrupt e, h2) ->
  memo_call cb args (c, h) = (Abrupt e, (c, h2), [[JRef (hnext h)]]).
Proof.
  intros Hk Hc Hv. unfold args_key in Hk. rewrite memo_call_eq. simpl in *.
  by rewrite Hk, Hc, Hv.
Qed.

(** The key of an argument list holding a Symbol cannot be computed. *)
Lemma args_key_sym h args s : JSym s ∈ args -> args_key h args = None.
Proof.
  intros Hs. unfold args_key, to_property_key, js_fuel.
  cbn [alloc fst snd to_str hobjs hnext]. rewrite lookup_insert_eq.
  rewrite mapM_None_2; [done|]. apply Exists_exists.
  exists (Some (JSym s)). split; [apply list_elem_of_fmap; eauto|done].
Qed.

(** C13. A Symbol among the arguments: [ToPropertyKey(args)] in
    [hasOwnProperty.call(cache, args)] throws a [TypeError] when the join
    reaches it, so the call throws before the callback runs and leaves the
    cache as it was, whatever the callback and the other arguments. *)
Theorem memo_symbol_argument_throws cb args c h s :
  JSym s ∈ args ->
  memo_call cb args (c, h) = (Abrupt TypeError, (c, (alloc (OArray (map Some args)) h).2), []).
Proof.
  intros Hs. pose proof (args_key_sym h args s Hs) as Hk. unfold args_key in Hk.
  rewrite memo_call_eq. simpl in *. by rewrite Hk.
Qed.

(** After one call with a key other than "__proto__", the key holds the
    result that call returned. *)
Lemma memo_call_caches cb args c h k :
  cb_extends cb -> cb_total cb -> heap_wf h -> Forall (val_ok h) args ->
  list_key h args = Some k -> k <> proto_key ->
  let '(r, (c', h'), _) := memo_call cb args (c, h) in
  heap_wf h' /\ heap_extends h h' /\ exists v, r = Normal v /\ own c' !! k = Some v.
Proof.
  intros Hcb Htot Hwf Hargs Hk Hp.
  pose proof (memo_call_pure cb args c h Hcb Htot Hwf Hargs) as Hrun.
  destruct (memo_call cb args (c, h)) as [[r [c' h']] t].
  destruct Hrun as (Hwf' & Hext' & Hcase). rewrite Hk in Hcase. split_and!; [done|done|].
  destruct (own c !! k) as [v|] eqn:Hc.
  - destruct Hcase as (-> & -> & _). eauto.
  - destruct Hcase as (v & -> & -> & _). exists v. split; [done|]. by apply cache_set_stores.
Qed.

(** C14. Two successive calls whose argument lists have the same key,
    such as [wrapped()] and [wrapped(null)], [wrapped(0)] and
    [wrapped(-0)], or [wrapped(4)] and [wrapped('4')]: for a callback
    that changes no existing object and does not throw, and a key that
    can be computed (no Symbol argument) other than "__proto__", the
    callback runs at most once and the second call returns the value of
    the first. The cache does not tell such argument lists apart. *)
Theorem memo_same_key_same_result cb args1 args2 c h k :
  cb_extends cb -> cb_total cb -> heap_wf h ->
  Forall (val_ok h) args1 -> Forall (val_ok h) args2 ->
  list_key h args1 = Some k -> list_key h args2 = Some k -> k <> proto_key ->
  let '(rs, _, t) := run_calls (memo_call cb) [args1; args2] (c, h) in
  length t <= 1 /\ exists v, rs = [Normal v; Normal v].
Proof.
  intros Hcb Htot Hwf Hargs1 Hargs2 Hk1 Hk2 Hp. simpl.
  pose proof (memo_call_caches cb args1 c h k Hcb Htot Hwf Hargs1 Hk1 Hp) as H1.
  pose proof (memo_call_pure cb args1 c h Hcb Htot Hwf Hargs1) as Hrun1.
  destruct (memo_call cb args1 (c, h)) as [[r1 [c1 h1]] t1].
  destruct H1 as (Hwf1 & Hext1 & v & -> & Hc1).
  assert (Forall (val_ok h1) args2) as Hargs2' by eauto with js.
  assert (args_key h1 args2 = Some k) as Hak.
  { rewrite args_key_list, (list_key_extends h) by done. exact Hk2. }
  unfold args_key in Hak. rewrite memo_call_eq. simpl in *. rewrite Hak, Hc1.
  unfold cache_get. rewrite Hc1. simpl. split; [|eauto]. rewrite !app_nil_r.
  destruct Hrun1 as (_ & _ & Hcase). rewrite Hk1 in Hcase.
  destruct (own c !! k); [destruct Hcase as (_ & _ & ->) | destruct Hcase as (? & _ & _ & -> & _ & _)];
    simpl; lia.
Qed.

(** C15. The key "__proto__" is never cached while the callback returns a
    primitive other than [null] (a [null] result becomes the prototype of
    the cache, after which the next assignment creates an own property
    "__proto__" that later calls find): the assignment [cache[args] = result]
    goes to the [__proto__] setter of [Object.prototype], which ignores
    it, so every such call runs the callback again. *)
Theorem memo_proto_key_never_cached cb m h :
  cb_extends cb -> heap_wf h ->
  (forall args h', exists v, (cb args h').1 = Normal v /\ v <> JNull /\ val_ref v = None) ->
  length (run_closure (cacheFunction cb) (replicate m [JStr proto_key]) h).2 = m.
Proof.
  intros Hcb Hwf Hprim. unfold run_closure. simpl.
  assert (cb_total cb) as Htot by (intros args h'; destruct (Hprim args h') as (v & ? & _); eauto).
  generalize empty_cache (eq_refl : own empty_cache !! proto_key = None)
    (eq_refl : proto empty_cache = ProtoObject).
  revert h Hwf. induction m as [|m IH]; intros h Hwf c Hown Hproto; [done|]. simpl.
  assert (Forall (val_ok h) [JStr proto_key]) as Hargs by (repeat constructor; by intros r).
  pose proof (memo_call_pure cb _ c h Hcb Htot Hwf Hargs) as Hrun.
  destruct (memo_call cb [JStr proto_key] (c, h)) as [[r [c' h']] t].
  assert (list_key h [JStr proto_key] = Some proto_key) as Hk by reflexivity.
  rewrite Hk, Hown in Hrun. destruct Hrun as (Hwf' & _ & v & -> & -> & -> & Hlook & Hcbv).
  assert (cache_set h' c proto_key v = c) as ->.
  { destruct (Hprim [JRef (hnext h)] (alloc (OArray (map Some [JStr proto_key])) h).2)
      as (v' & Hv' & Hnull & Href).
    rewrite Hcbv in Hv'. simpl in Hv'. injection Hv' as <-.
    unfold cache_set. rewrite Hown, bool_decide_true, Hproto by done. simpl.
    by destruct v. }
  specialize (IH h' Hwf' c Hown Hproto).
  destruct (run_calls _ _ _) as [[rs s] t2]. simpl in *. by rewrite IH.
Qed.

(** A callback that pushes 0 onto its argument array and returns 7. *)
Definition push_arg : callback := fun args h =>
  match args with
  | [JRef a] =>
      match hobjs h !! a with
      | Some (OArray es) => (Normal (JNum 7), heap_write a (OArray (es ++ [Some (JNum 0)])) h)
      | _ => (Normal JUndefined, h)
      end
  | _ => (Normal JUndefined, h)
  end.

(** The assignment under another key leaves the entry of a key alone. *)
Lemma cache_set_other h c k k' v : k' <> k -> own (cache_set h c k' v) !! k = own c !! k.
Proof.
  intros Hne. unfold cache_set.
  destruct (own c !! k'); [simpl; by rewrite lookup_insert_ne|].
  destruct (_ && _); [by destruct v|]. simpl. by rewrite lookup_insert_ne.
Qed.

(** C16. The callback receives the argument array by reference and the
    key is computed again after it ran (line 47): when the callback
    changes the array so that its key becomes [k'] ([args.push(0)]), the
    result is stored under [k'] and the key [k] of the call stays
    uncached, so the same call runs the callback again. *)
Theorem memo_mutating_callback_not_cached cb args c h k k' v h2 :
  args_key h args = Some k -> own c !! k = None ->
  cb [JRef (hnext h)] (alloc (OArray (map Some args)) h).2 = (Normal v, h2) ->
  to_property_key h2 (JRef (hnext h)) = Some k' -> k' <> k ->
  let '(r, (c', _), t) := memo_call cb args (c, h) in
  r = Normal v /\ t = [[JRef (hnext h)]] /\ c' = cache_set h2 c k' v /\ own c' !! k = None.
Proof.
  intros Hk Hc Hv Hk' Hne. unfold args_key in Hk. rewrite memo_call_eq. simpl in *.
  rewrite Hk, Hc, Hv, Hk'. split_and!; try done. by rewrite cache_set_other.
Qed.

(** C17. Spec scenario 3 in general: on integer arguments the key tells
    argument lists apart, so for a callback that changes no existing
    object and does not throw, two calls with different lists of integers
    below [10^21] in absolute value, such as [wrapped(2, 3)] and then
    [wrapped(3, 2)], both run the callback. *)
Theorem memo_distinct_int_args cb zs1 zs2 h :
  cb_extends cb -> cb_total cb -> heap_wf h ->
  Forall (fun z => Z.abs z < 10 ^ 21)%Z zs1 -> Forall (fun z => Z.abs z < 10 ^ 21)%Z zs2 ->
  zs1 <> zs2 ->
  length (run_closure (cacheFunction cb) [List.map JNum zs1; List.map JNum zs2] h).2 = 2.
Proof.
  intros Hcb Htot Hwf H1 H2 Hne.
  set (k1 := intercalate (lit ",") (List.map number_to_string zs1)).
  set (k2 := intercalate (lit ",") (List.map number_to_string zs2)).
  assert (k1 <> k2) as Hk by (intros Heq; apply Hne; by apply list_key_ints_inj).
  assert (forall h' zs, Forall (val_ok h') (List.map JNum zs)) as Hok.
  { intros h' zs. apply Forall_forall. intros v (z & -> & _)%list_elem_of_fmap r [=]. }
  unfold run_closure. simpl.
  pose proof (memo_call_pure cb (List.map JNum zs1) empty_cache h Hcb Htot Hwf (Hok h zs1)) as Hrun1.
  destruct (memo_call cb _ (empty_cache, h)) as [[r1 [c1 h1]] t1].
  destruct Hrun1 as (Hwf1 & _ & Hcase1). rewrite list_key_ints in Hcase1. fold k1 in Hcase1.
  destruct Hcase1 as (v1 & -> & -> & -> & _).
  pose proof (memo_call_pure cb (List.map JNum zs2) (cache_set h1 empty_cache k1 v1) h1
    Hcb Htot Hwf1 (Hok h1 zs2)) as Hrun2.
  destruct (memo_call cb _ (cache_set h1 empty_cache k1 v1, h1)) as [[r2 [c2 h2]] t2].
  destruct Hrun2 as (_ & _ & Hcase2). rewrite list_key_ints in Hcase2. fold k2 in Hcase2.
  rewrite cache_set_other in Hcase2 by done.
  destruct Hcase2 as (v2 & _ & _ & -> & _). done.
Qed.

(** C9. Refinement: for a callback that only allocates, and argument
    lists whose key is not "__proto__", the closure returned by
    [cacheFunction cb] implements the specification [memo_spec_call]
    started on the empty map: over any sequence of calls both give the
    same results, heap and callback calls, and the cache's own properties
    are the specification's map. Recomputing the key after the callback
    ran makes no difference for such callbacks. *)
Theorem memo_refines_spec cb calls h0 :
  cb_extends cb -> heap_wf h0 ->
  Forall (fun args => Forall (val_ok h0) args /\ list_key h0 args <> Some proto_key) calls ->
  let '(rs1, (c, h1), t1) := run_closure (cacheFunction cb) calls h0 in
  let '(rs2, (m, h2), t2) := run_calls (memo_spec_call cb) calls (∅, h0) in
  rs1 = rs2 /\ h1 = h2 /\ t1 = t2 /\ own c = m.
Proof.
  intros Hcb Hwf0 Hcalls.
  set (R := fun c m h => own c = m /\ heap_wf h /\ heap_extends h0 h).
  assert (forall args c m h,
    Forall (val_ok h0) args /\ list_key h0 args <> Some proto_key -> R c m h ->
    let '(r1, (c', h1), t1) := memo_call cb args (c, h) in
    let '(r2, (m', h2), t2) := memo_spec_call cb args (m, h) in
    r1 = r2 /\ h1 = h2 /\ t1 = t2 /\ R c' m' h1) as Hstep.
  { intros args c m h [Hargs0 Hp] (<- & Hwf & Hext).
    assert (Forall (val_ok h) args) as Hargs by eauto with js.
    pose proof (memo_call_refines cb args c h Hcb Hwf Hargs) as Href.
    rewrite (list_key_extends h0 h) in Href by done.
    destruct (memo_call cb args (c, h)) as [[r1 [c' h1]] t1].
    destruct (memo_spec_call cb args (own c, h)) as [[r2 [m' h2]] t2].
    destruct (Href Hp) as (-> & -> & -> & ? & ? & ?). unfold R. split_and!; try done. by etrans. }
  pose proof (run_calls_simulation (memo_call cb) (memo_spec_call cb) _ R Hstep
    calls empty_cache ∅ h0 Hcalls) as Hsim.
  unfold run_closure. simpl.
  destruct (run_calls (memo_call cb) calls _) as [[rs1 [c h1]] t1].
  destruct (run_calls (memo_spec_call cb) calls _) as [[rs2 [m h2]] t2].
  destruct Hsim as (? & ? & ? & ? & _); [unfold R; split_and!; done|]. done.
Qed.

(** The callback [(args) => args.length]. *)
Definition length_cb : callback := fun args h =>
  match args with
  | [JRef a] =>
      match hobjs h !! a with
      | Some (OArray es) => (Normal (JNum (Z.of_nat (length es))), h)
      | _ => (Normal JUndefined, h)
      end
  | _ => (Normal JUndefined, h)
  end.

(** ** Witnesses *)

(** A callback that squares an argument array holding one integer, as
    [x => x * x] does in scenario 2 of the specification ([[4] * [4]]
    converts both arrays to 4), and returns NaN on other arguments. *)
Definition square_of_array (args : list jsval) (h : heap) : jsval :=
  match args with
  | [JRef a] =>
      match hobjs h !! a with
      | Some (OArray [Some (JNum z)]) => JNum (z * z)
      | _ => JNaN
      end
  | _ => JNaN
  end.

Definition square_cb : callback := fun args h => (Normal (square_of_array args h), h).

Lemma square_cb_extends : cb_extends square_cb.
Proof.
  apply prim_callback_extends. intros [|[] [|]] h; try done.
  simpl. destruct (hobjs h !! r) as [[[|[[]|] []]|]|]; done.
Qed.

Lemma square_cb_total : cb_total square_cb.
Proof. intros args h. eexists. reflexivity. Qed.

Lemma memo_at_most_once_per_key_witness :
  let '(_, (_, hf), t) := run_closure (cacheFunction square_cb)
      [[JNum 1; JNum 2]; [JStr (lit "1,2")]; [JNum 4]; [JNum 4]] empty_heap in
  Forall (fun e => is_Some (event_key hf e)) t /\
  NoDup (filter (fun o => o <> Some proto_key) (map (event_key hf) t)).
Proof.
  apply memo_at_most_once_per_key;
    [apply square_cb_extends | apply square_cb_total | apply empty_heap_wf |].
  repeat constructor; by intros r.
Defined.

(** Scenario 3 of the specification, with the order of the arguments
    changed into a string: [(1, 2)] and then ["1,2"] share the key "1,2",
    so the second call gets the first result. *)
Lemma memo_hit_witness :
  memo_call square_cb [JStr (lit "1,2")] (mk_cache {[lit "1,2" := JNaN]} ProtoObject, empty_heap)
  = (Normal JNaN, (mk_cache {[lit "1,2" := JNaN]} ProtoObject,
                   (alloc (OArray (map Some [JStr (lit "1,2")])) empty_heap).2), []).
Proof. apply memo_hit with (lit "1,2"); vm_compute; reflexivity. Defined.

Lemma memo_miss_witness :
  memo_call square_cb [JNum 4] (empty_cache, empty_heap)
  = (Normal (JNum 16),
     (cache_set (alloc (OArray (map Some [JNum 4])) empty_heap).2 empty_cache (lit "4") (JNum 16),
      (alloc (OArray (map Some [JNum 4])) empty_heap).2), [[JRef (hnext empty_heap)]]) /\
  hobjs (alloc (OArray (map Some [JNum 4])) empty_heap).2 !! hnext empty_heap
  = Some (OArray (map Some [JNum 4])).
Proof.
  apply memo_miss; [apply empty_heap_wf | repeat constructor; by intros r |
    apply square_cb_extends | vm_compute; reflexivity | reflexivity | reflexivity].
Defined.

Definition throw_cb : callback := fun _ h => (Abrupt (Thrown (JStr (lit "boom"))), h).

Lemma memo_throw_not_cached_witness :
  memo_call throw_cb [JNum 1] (empty_cache, empty_heap)
  = (Abrupt (Thrown (JStr (lit "boom"))), (empty_cache, (alloc (OArray (map Some [JNum 1])) empty_heap).2),
     [[JRef (hnext empty_heap)]]).
Proof.
  apply memo_throw_not_cached with (lit "1"); [vm_compute; reflexivity | reflexivity | reflexivity].
Defined.

(** Scenario 2 of the specification with the second argument a string:
    [wrapped(4)] and [wrapped('4')] share the key "4", so the second call
    returns 16 without calling the callback. *)
Lemma memo_same_key_same_result_witness :
  let '(rs, _, t) := run_calls (memo_call square_cb) [[JNum 4]; [JStr (lit "4")]]
                       (empty_cache, empty_heap) in
  length t <= 1 /\ exists v, rs = [Normal v; Normal v].
Proof.
  apply memo_same_key_same_result with (lit "4");
    [apply square_cb_extends | apply square_cb_total | apply empty_heap_wf |
     repeat constructor; by intros r | repeat constructor; by intros r |
     vm_compute; reflexivity | vm_compute; reflexivity | vm_compute; discriminate].
Defined.

Lemma memo_proto_key_never_cached_witness :
  length (run_closure (cacheFunction (fun _ h => (Normal (JNum 1), h)))
            (replicate 3 [JStr proto_key]) empty_heap).2 = 3.
Proof.
  apply memo_proto_key_never_cached;
    [apply prim_callback_extends; done | apply empty_heap_wf |].
  intros args h. exists (JNum 1). done.
Defined.

Lemma memo_refines_spec_witness :
  let '(rs1, (c, h1), t1) := run_closure (cacheFunction square_cb) [[JNum 4]; [JNum 4]] empty_heap in
  let '(rs2, (m, h2), t2) := run_calls (memo_spec_call square_cb) [[JNum 4]; [JNum 4]] (∅, empty_heap) in
  rs1 = rs2 /\ h1 = h2 /\ t1 = t2 /\ own c = m.
Proof.
  apply memo_refines_spec; [apply square_cb_extends | apply empty_heap_wf |].
  repeat constructor; try (by intros r); vm_compute; discriminate.
Defined.

Lemma memo_symbol_argument_throws_witness :
  JSym 0 ∈ [JNum 1; JSym 0] /\
  memo_call length_cb [JNum 1; JSym 0] (empty_cache, empty_heap)
  = (Abrupt TypeError, (empty_cache, (alloc (OArray [Some (JNum 1); Some (JSym 0)]) empty_heap).2), []).
Proof.
  assert (JSym 0 ∈ [JNum 1; JSym 0]) as Hs.
  { apply elem_of_cons. right. apply list_elem_of_singleton. reflexivity. }
  split; [exact Hs|]. apply (memo_symbol_argument_throws length_cb _ _ _ 0 Hs).
Defined.

(** [args.push(0)] on [wrapped(1)]: the key "1" becomes "1,0". *)
Lemma memo_mutating_callback_not_cached_witness :
  let '(r, (c', _), t) := memo_call push_arg [JNum 1] (empty_cache, empty_heap) in
  r = Normal (JNum 7) /\ t = [[JRef (hnext empty_heap)]] /\
  c' = cache_set (snd (push_arg [JRef 0] (alloc (OArray [Some (JNum 1)]) empty_heap).2))
         empty_cache (lit "1,0") (JNum 7) /\
  own c' !! lit "1" = None.
Proof.
  apply (memo_mutating_callback_not_cached push_arg [JNum 1] empty_cache empty_heap (lit "1"));
    vm_compute; first [reflexivity | discriminate].
Defined.

(** Scenario 3 of the specification: [wrapped(2, 3)], then [wrapped(3, 2)]. *)
Lemma memo_distinct_int_args_witness :
  length (run_closure (cacheFunction square_cb) [List.map JNum [2; 3]%Z; List.map JNum [3; 2]%Z]
            empty_heap).2 = 2.
Proof.
  apply memo_distinct_int_args;
    [apply square_cb_extends | apply square_cb_total | apply empty_heap_wf |
     repeat constructor | repeat constructor | by intros [=]].
Defined.

End Memoizer.
