(* ===== verification/Iteration.v ===== *)
(** * The iteration helpers: [each] and [map] (src/src/challenges.js, lines 2-18)

<<
const each = (elements, cb) =>
  elements.forEach((value, i) => { cb(value, i); });
const map = (elements, cb) => {
  const resultingArr = [];
  elements.forEach(i => { resultingArr.push(cb(i)); });
  return resultingArr;
};
>>
    Both go through [Array.prototype.forEach], modelled after ECMA-262:
    the length is read once, then for each index below it the element is
    read from the heap again (the callback may have changed the array)
    and holes are skipped. A receiver that is not an array has no
    [forEach] method, which throws a [TypeError]. *)

From S2P Require Import Prelude JsValue JsMonad.

Module Iter.

(** ** [Array.prototype.forEach] *)

(** One step of the loop at index [k]: the array at [r] is read again;
    a hole (or an index now past the end) is skipped. *)
Definition for_each_step {L} (r : nat) (k : nat) (body : jsval -> nat -> js L unit)
    : js L unit :=
  h <- get_heap ;;
  match hobjs h !! r with
  | Some (OArray es) =>
      match es !! k with
      | Some (Some v) => body v k
      | _ => ret tt
      end
  | _ => ret tt
  end.

(** The loop over the indices [ks]. *)
Fixpoint for_each_loop {L} (r : nat) (ks : list nat) (body : jsval -> nat -> js L unit)
    : js L unit :=
  match ks with
  | [] => ret tt
  | k :: ks' => for_each_step r k body ;; for_each_loop r ks' body
  end.

(** [elements.forEach(body)]: the length is read before the loop. *)
Definition array_forEach {L} (elements : jsval) (body : jsval -> nat -> js L unit) : js L unit :=
  h <- get_heap ;;
  match elements with
  | JRef r =>
      match hobjs h !! r with
      | Some (OArray es) => for_each_loop r (seq 0 (length es)) body
      | _ => throw TypeError
      end
  | _ => throw TypeError
  end.

(** ** [each] (lines 2-8) *)

(** The arrow [(value, i) => { cb(value, i); }] discards the callback's
    result; [forEach] returns [undefined], which [each] returns. *)
Definition each (elements : jsval) (cb : callback) : js unit jsval :=
  array_forEach elements (fun v i => _ <- invoke cb [v; JNum (Z.of_nat i)] ;; ret tt) ;;
  ret JUndefined.

(** ** [map] (lines 10-18) *)

(** [resultingArr.push(x)]: append at the end of the array at [r]. *)
Definition array_push {L} (r : nat) (x : jsval) : js L unit :=
  fun '(l, h) =>
    match hobjs h !! r with
    | Some (OArray es) => (Normal tt, (l, heap_write r (OArray (es ++ [Some x])) h), [])
    | _ => (Abrupt TypeError, (l, h), [])
    end.

(** The arrow [i => { resultingArr.push(cb(i)); }] passes only the
    element to the callback. *)
Definition map (elements : jsval) (cb : callback) : js unit jsval :=
  res <- new_obj (OArray []) ;;
  array_forEach elements (fun v _ => x <- invoke cb [v] ;; array_push res x) ;;
  ret (JRef res).

(** ** The present elements of an array, in index order *)

Definition present_at (es : list (option jsval)) (ks : list nat) : list (nat * jsval) :=
  omap (fun k => (fun v => (k, v)) <$> (es !! k ≫= id)) ks.

Definition present (es : list (option jsval)) : list (nat * jsval) :=
  present_at es (seq 0 (length es)).

Lemma present_at_cons es k ks :
  present_at es (k :: ks) =
    match es !! k with
    | Some (Some v) => (k, v) :: present_at es ks
    | _ => present_at es ks
    end.
Proof. unfold present_at. simpl. by destruct (es !! k) as [[]|]. Qed.

Lemma present_at_shift e es ks :
  present_at (e :: es) (S <$> ks) = (fun p => (S p.1, p.2)) <$> present_at es ks.
Proof.
  induction ks as [|k ks IH]; [done|]. cbn [fmap list_fmap].
  rewrite !present_at_cons. simpl. destruct (es !! k) as [[v|]|]; simpl; by rewrite IH.
Qed.

(** The values [forEach] visits are the elements that are not holes. *)
Lemma present_values es : List.map snd (present es) = omap id es.
Proof.
  rewrite list_map_fmap. unfold present. induction es as [|e es IH]; [done|]. cbn [length seq].
  rewrite present_at_cons, <- fmap_S_seq, present_at_shift.
  destruct e as [v|]; simpl; [f_equal|]; rewrite <- list_fmap_compose; exact IH.
Qed.


(** ** The loop, for a body that keeps an invariant *)

Lemma for_each_step_eq {L} r k (body : jsval -> nat -> js L unit) l h :
  for_each_step r k body (l, h) =
    match hobjs h !! r with
    | Some (OArray es) =>
        match es !! k with
        | Some (Some v) => body v k (l, h)
        | _ => (Normal tt, (l, h), [])
        end
    | _ => (Normal tt, (l, h), [])
    end.
Proof.
  unfold for_each_step; unfold_js. cbn.
  destruct (hobjs h !! r) as [[es|]|]; try done.
  destruct (es !! k) as [[v|]|]; try done. by destruct (body v k (l, h)) as [[? ?] ?].
Qed.

Section Loop.
Context {L : Type} (r : nat) (es : list (option jsval)).
Context (body : jsval -> nat -> js L unit) (ev : jsval -> nat -> event).
(** [Q acc h]: the heap [h] after the body ran on the values [acc]. *)
Context (Q : list jsval -> heap -> Prop).
Hypothesis Q_array : forall acc h, Q acc h -> hobjs h !! r = Some (OArray es).
Hypothesis body_step : forall acc v k l h, Q acc h -> es !! k = Some (Some v) ->
  exists h', body v k (l, h) = (Normal tt, (l, h'), [ev v k]) /\ Q (acc ++ [v]) h'.

Lemma for_each_loop_spec ks acc l h :
  Q acc h ->
  exists h', for_each_loop r ks body (l, h) =
    (Normal tt, (l, h'), List.map (fun '(k, v) => ev v k) (present_at es ks)) /\
    Q (acc ++ List.map snd (present_at es ks)) h'.
Proof.
  revert acc h. induction ks as [|k ks IH]; intros acc h HQ.
  { exists h. by rewrite app_nil_r. }
  rewrite present_at_cons. cbn [for_each_loop]. unfold bind at 1.
  rewrite for_each_step_eq, (Q_array acc h HQ).
  destruct (es !! k) as [[v|]|] eqn:Hk.
  - destruct (body_step acc v k l h HQ Hk) as (h1 & -> & HQ1).
    destruct (IH _ _ HQ1) as (h2 & -> & HQ2).
    exists h2. split; [done|]. by rewrite <- app_assoc in HQ2.
  - destruct (IH _ _ HQ) as (h2 & -> & HQ2). eauto.
  - destruct (IH _ _ HQ) as (h2 & -> & HQ2). eauto.
Qed.

(** Whatever the body does to the heap, one event per index at most. *)
Lemma for_each_loop_calls_bound ks l h :
  (forall v k s, length (body v k s).2 <= 1) ->
  length (for_each_loop r ks body (l, h)).2 <= length ks.
Proof.
  intros Hb. revert l h. induction ks as [|k ks IH]; intros l h; [simpl; lia|].
  assert (length (for_each_step r k body (l, h)).2 <= 1) as Hm.
  { rewrite for_each_step_eq. destruct (hobjs h !! r) as [[es'|]|]; [|simpl; lia..].
    destruct (es' !! k) as [[v|]|]; [apply Hb|simpl; lia..]. }
  cbn [for_each_loop]. unfold bind at 1.
  destruct (for_each_step r k body (l, h)) as [[[[]|e] [l1 h1]] t1]; simpl in *; [|lia].
  specialize (IH l1 h1). destruct (for_each_loop r ks body (l1, h1)) as [[r2 s2] t2].
  simpl in *. rewrite length_app. lia.
Qed.
End Loop.

(** ** Properties of [each] and [map] *)

Lemma array_forEach_array {L} r es (body : jsval -> nat -> js L unit) l h :
  hobjs h !! r = Some (OArray es) ->
  array_forEach (JRef r) body (l, h) = for_each_loop r (seq 0 (length es)) body (l, h).
Proof.
  intros Hr. unfold array_forEach, bind, get_heap. cbn -[for_each_loop]. rewrite Hr.
  by destruct (for_each_loop _ _ _ _) as [[? ?] ?].
Qed.

(** The loop ends with the first body that ends abruptly, at the first
    present element. *)
Lemma for_each_loop_first_abrupt {L} r es (body : jsval -> nat -> js L unit) ks l h k v rest e s' t :
  hobjs h !! r = Some (OArray es) -> present_at es ks = (k, v) :: rest ->
  body v k (l, h) = (Abrupt e, s', t) ->
  for_each_loop r ks body (l, h) = (Abrupt e, s', t).
Proof.
  intros Hr. induction ks as [|k0 ks IH]; [done|]. rewrite present_at_cons. intros Hp Hb.
  cbn [for_each_loop]. unfold bind at 1. rewrite for_each_step_eq, Hr.
  destruct (es !! k0) as [[v0|]|]; [injection Hp as <- <- _; by rewrite Hb|..];
    rewrite (IH Hp Hb); done.
Qed.

(** C18. When the callback never throws and leaves the array alone, [each]
    calls it once per present element, in index order, with the value
    and the index, and returns [undefined]. *)
Theorem each_calls_in_order cb r es h :
  hobjs h !! r = Some (OArray es) -> cb_total cb ->
  (forall args h', hobjs h' !! r = Some (OArray es) -> hobjs (cb args h').2 !! r = Some (OArray es)) ->
  let '(res, _, t) := each (JRef r) cb (tt, h) in
  res = Normal JUndefined /\ t = List.map (fun '(k, v) => [v; JNum (Z.of_nat k)]) (present es).
Proof.
  intros Hr Htot Hkeep. unfold each. unfold bind at 1. rewrite (array_forEach_array r es) by done.
  set (Q := fun (_ : list jsval) h' => hobjs h' !! r = Some (OArray es)).
  set (body := fun v i => _ <- invoke (L := unit) cb [v; JNum (Z.of_nat i)] ;; ret tt).
  assert (forall acc v k l h0, Q acc h0 -> es !! k = Some (Some v) -> exists h1,
    body v k (l, h0) = (Normal tt, (l, h1), [[v; JNum (Z.of_nat k)]]) /\ Q (acc ++ [v]) h1)
    as Hstep.
  { intros acc v k l h0 Hh0 _. exists (cb [v; JNum (Z.of_nat k)] h0).2.
    split; [|by apply Hkeep]. destruct (Htot [v; JNum (Z.of_nat k)] h0) as [w Hw].
    unfold body, bind, invoke, ret. simpl. destruct (cb _ h0) as [c h1]. simpl in *. by subst c. }
  destruct (for_each_loop_spec r es body (fun v k => [v; JNum (Z.of_nat k)]) Q
    (fun _ _ H => H) Hstep (seq 0 (length es)) [] tt h Hr) as (h' & Hrun & _).
  fold body. rewrite Hrun. simpl. by rewrite app_nil_r.
Qed.

(** C19. Whatever the callback does (it may push onto the array it
    iterates over), [each] calls it at most as many times as the array
    had elements when the loop started: the loop terminates. *)
Theorem each_calls_bounded cb r es h :
  hobjs h !! r = Some (OArray es) ->
  length (each (JRef r) cb (tt, h)).2 <= length es.
Proof.
  intros Hr. unfold each. unfold bind at 1. rewrite (array_forEach_array r es) by done.
  pose proof (for_each_loop_calls_bound r
    (fun v i => _ <- invoke cb [v; JNum (Z.of_nat i)] ;; ret tt) (seq 0 (length es)) tt h)
    as Hb. rewrite length_seq in Hb.
  assert (forall v k (s : unit * heap), length ((_ <- invoke cb [v; JNum (Z.of_nat k)] ;; ret tt) s).2 <= 1)
    as Hbody.
  { intros v k [l h0]. unfold bind, invoke, ret. simpl.
    destruct (cb _ h0) as [[] ?]; simpl; lia. }
  specialize (Hb Hbody).
  destruct (for_each_loop _ _ _ _) as [[[[]|e] s] t]; simpl in *; [rewrite app_nil_r|]; done.
Qed.

(** [map] with a callback that, on the elements of the array, returns
    [f] of its argument and leaves the heap alone. *)
Lemma map_result_on cb f r es h :
  heap_wf h -> hobjs h !! r = Some (OArray es) ->
  (forall k v h', es !! k = Some (Some v) -> cb [v] h' = (Normal (f [v]), h')) ->
  exists h', map (JRef r) cb (tt, h) =
    (Normal (JRef (hnext h)), (tt, h'), List.map (fun '(_, v) => [v]) (present es)) /\
    hobjs h' !! hnext h = Some (OArray (List.map (fun '(_, v) => Some (f [v])) (present es))).
Proof.
  intros Hwf Hr Hcb. set (res := hnext h).
  assert (r <> res) as Hne by (intros ->; unfold res in Hr; by rewrite wf_fresh in Hr).
  set (h1 := (alloc (OArray []) h).2).
  assert (hobjs h1 !! r = Some (OArray es)) as Hr1 by (simpl; by rewrite lookup_insert_ne).
  set (Q := fun acc h' => hobjs h' !! r = Some (OArray es) /\
              hobjs h' !! res = Some (OArray (List.map (fun v => Some (f [v])) acc))).
  set (body := fun v (_ : nat) => x <- invoke (L := unit) cb [v] ;; array_push res x).
  assert (forall acc v k l h0, Q acc h0 -> es !! k = Some (Some v) -> exists h2,
    body v k (l, h0) = (Normal tt, (l, h2), [[v]]) /\ Q (acc ++ [v]) h2) as Hstep.
  { intros acc v k l h0 [Hr0 Hres0] Hk. eexists. split.
    - unfold body, bind, invoke. simpl. rewrite (Hcb k v h0 Hk). simpl. rewrite Hres0. reflexivity.
    - split; simpl; [by rewrite lookup_insert_ne|].
      rewrite lookup_insert_eq, List.map_app. done. }
  assert (Q [] h1) as HQ1 by (split; [done|]; simpl; apply lookup_insert_eq).
  destruct (for_each_loop_spec r es body (fun v _ => [v]) Q (fun _ _ H => proj1 H) Hstep
    (seq 0 (length es)) [] tt h1 HQ1) as (h' & Hrun & HQ' & Hres).
  exists h'. unfold map. unfold bind at 1, new_obj. simpl.
  unfold bind at 1. rewrite (array_forEach_array r es) by done. unfold body, h1, res in *. simpl in Hrun. rewrite Hrun. simpl.
  split; [by rewrite app_nil_r|]. rewrite Hres. do 2 f_equal.
  rewrite app_nil_l, List.map_map. apply List.map_ext. by intros [].
Qed.
(** C21. [map] with a callback [f] that does not touch the heap returns a
    new array holding [f] of each present element, in index order; the
    callback receives only the element. Holes are dropped, so the result
    is shorter than the input when the input has holes. *)
Theorem map_result cb f r es h :
  heap_wf h -> hobjs h !! r = Some (OArray es) ->
  (forall args h', cb args h' = (Normal (f args), h')) ->
  exists h', map (JRef r) cb (tt, h) =
    (Normal (JRef (hnext h)), (tt, h'), List.map (fun '(_, v) => [v]) (present es)) /\
    hobjs h' !! hnext h = Some (OArray (List.map (fun '(_, v) => Some (f [v])) (present es))).
Proof. intros Hwf Hr Hcb. apply map_result_on; [done|done|]. intros k v h' _. apply Hcb. Qed.


(** C23. A receiver that is not an array has no [forEach]: [each] throws
    a [TypeError] before calling the callback. *)
Theorem each_not_array_throws cb v h :
  (forall r es, v = JRef r -> hobjs h !! r <> Some (OArray es)) ->
  each v cb (tt, h) = (Abrupt TypeError, (tt, h), []).
Proof.
  intros Hv. unfold each, array_forEach; unfold_js. simpl.
  destruct v as [| | | | | |r| | | |]; try done.
  destruct (hobjs h !! r) as [[es|ps]|] eqn:Hr; try done. by destruct (Hv r es eq_refl).
Qed.

(** C20. An exception thrown by the callback ends [each]: the callback
    was called once, on the first present element, and the exception
    propagates; the later elements are not visited. *)
Theorem each_stops_at_throw cb r es h k v rest e h' :
  hobjs h !! r = Some (OArray es) -> present es = (k, v) :: rest ->
  cb [v; JNum (Z.of_nat k)] h = (Abrupt e, h') ->
  each (JRef r) cb (tt, h) = (Abrupt e, (tt, h'), [[v; JNum (Z.of_nat k)]]).
Proof.
  intros Hr Hp Hcb. unfold each. unfold bind at 1. rewrite (array_forEach_array r es) by done.
  rewrite (for_each_loop_first_abrupt r es _ _ tt h k v rest e (tt, h') [[v; JNum (Z.of_nat k)]]);
    [done..|]. unfold_js. simpl. by rewrite Hcb.
Qed.

(** C22. An exception thrown by the callback ends [map] too: the new
    array was allocated, the callback ran once, on the first present
    element, and the exception propagates instead of the array. *)
Theorem map_stops_at_throw cb r es h k v rest e h' :
  heap_wf h -> hobjs h !! r = Some (OArray es) -> present es = (k, v) :: rest ->
  cb [v] (alloc (OArray []) h).2 = (Abrupt e, h') ->
  map (JRef r) cb (tt, h) = (Abrupt e, (tt, h'), [[v]]).
Proof.
  intros Hwf Hr Hp Hcb. simpl in Hcb. unfold map, bind at 1, new_obj. simpl. unfold bind at 1.
  assert (r <> hnext h) as Hne by (intros ->; by rewrite wf_fresh in Hr).
  rewrite (array_forEach_array r es) by (simpl; by rewrite lookup_insert_ne).
  rewrite (for_each_loop_first_abrupt r es _ _ tt _ k v rest e (tt, h') [[v]]);
    [done|simpl; by rewrite lookup_insert_ne|done|]. unfold_js. simpl. by rewrite Hcb.
Qed.

(** ** Witnesses *)

(** The array [[1, <hole>, 3]] at address 0. *)
Definition sparse_elems : list (option jsval) := [Some (JNum 1); None; Some (JNum 3)].
Definition sparse_heap : heap := (alloc (OArray sparse_elems) empty_heap).2.

Lemma sparse_heap_wf : heap_wf sparse_heap.
Proof. apply alloc_wf; [apply empty_heap_wf|]. repeat constructor; by intros r. Qed.

Definition const_five : callback := fun _ h => (Normal (JNum 5), h).

Lemma each_calls_in_order_witness :
  let '(res, _, t) := each (JRef 0) const_five (tt, sparse_heap) in
  res = Normal JUndefined /\ t = List.map (fun '(k, v) => [v; JNum (Z.of_nat k)]) (present sparse_elems).
Proof.
  apply each_calls_in_order; [reflexivity | intros args h; eexists; reflexivity | done].
Defined.

(** [elements.push(9)] on the array at address 0, at every call. *)
Definition push_nine : callback := fun _ h =>
  match hobjs h !! 0 with
  | Some (OArray es) => (Normal JUndefined, heap_write 0 (OArray (es ++ [Some (JNum 9)])) h)
  | _ => (Normal JUndefined, h)
  end.

Lemma each_calls_bounded_witness :
  length (each (JRef 0) push_nine (tt, sparse_heap)).2 <= length sparse_elems.
Proof. apply each_calls_bounded. reflexivity. Defined.

(** The hole is dropped: the result has two elements, the input three. *)
Lemma map_result_witness :
  exists h', map (JRef 0) const_five (tt, sparse_heap) =
    (Normal (JRef (hnext sparse_heap)), (tt, h'), List.map (fun '(_, v) => [v]) (present sparse_elems)) /\
    hobjs h' !! hnext sparse_heap =
      Some (OArray (List.map (fun '(_, v) => Some ((fun _ => JNum 5) [v])) (present sparse_elems))).
Proof.
  apply (map_result const_five (fun _ => JNum 5)); [apply sparse_heap_wf | reflexivity | done].
Defined.

Lemma each_not_array_throws_witness :
  each (JStr (lit "abc")) const_five (tt, empty_heap) = (Abrupt TypeError, (tt, empty_heap), []).
Proof. apply each_not_array_throws. by intros r es. Defined.

(** A callback that throws 7. *)
Definition throw_seven : callback := fun _ h => (Abrupt (Thrown (JNum 7)), h).

Lemma each_stops_at_throw_witness :
  each (JRef 0) throw_seven (tt, sparse_heap) =
    (Abrupt (Thrown (JNum 7)), (tt, sparse_heap), [[JNum 1; JNum (Z.of_nat 0)]]).
Proof. apply (each_stops_at_throw throw_seven 0 sparse_elems sparse_heap 0 (JNum 1) [(2, JNum 3)]); reflexivity. Defined.

Lemma map_stops_at_throw_witness :
  map (JRef 0) throw_seven (tt, sparse_heap) =
    (Abrupt (Thrown (JNum 7)), (tt, (alloc (OArray []) sparse_heap).2), [[JNum 1]]).
Proof.
  apply (map_stops_at_throw throw_seven 0 sparse_elems sparse_heap 0 (JNum 1) [(2, JNum 3)]);
    [apply sparse_heap_wf | reflexivity..].
Defined.

End Iter.
