(* ===== verification/Recursion.v ===== *)
(** * The recursion exercises: [reverseStr], [checkMatchingLeaves], [flatten]
    (src/src/challenges.js, lines 57-83)

<<
const reverseStr = str => {
  if (str === '') { return ''; }
  return reverseStr(str.substr(1)) + str.charAt(0);
};
const checkMatchingLeaves = obj => {
  const firstVal = Object.values(obj)[0];
  for (let i = 1; i < Object.values(obj).length; i++) {
    if (firstVal !== Object.values(obj)[i]) { return false; }
  }
  return true;
};
const flatten = elements => { };
>>
    [reverseStr] works on UTF-16 code units. [Object.values] lists the own
    values in the order of OrdinaryOwnPropertyKeys: array-index keys in
    ascending numeric order, then the other keys in insertion order;
    nothing runs between its calls in the loop, so every call gives the
    same list. [flatten] has an empty body and returns [undefined]. *)

From S2P Require Import Prelude JsNumber JsValue JsMonad.
From stdpp Require Import sorting.

Module ReverseStr.

(** ** [reverseStr] (lines 57-64) *)

(** [str.substr(1)] is the tail and [str.charAt(0)] the first code unit. *)
Fixpoint reverseStr (str : jsstr) : jsstr :=
  match str with
  | [] => []
  | c :: rest => reverseStr rest ++ [c]
  end.

(** On a value that is not a string, [str.substr] is not a function. *)
Definition reverseStr_val (v : jsval) : completion jsval :=
  match v with
  | JStr s => Normal (JStr (reverseStr s))
  | _ => Abrupt TypeError
  end.

(** Well-formed UTF-16: every high surrogate is followed by a low one and
    every low surrogate follows a high one. *)
Definition is_high (u : Z) : bool := ((55296 <=? u) && (u <=? 56319))%Z.
Definition is_low (u : Z) : bool := ((56320 <=? u) && (u <=? 57343))%Z.

Fixpoint utf16_wf (s : jsstr) : bool :=
  match s with
  | [] => true
  | u :: rest =>
      if is_high u then
        match rest with
        | w :: rest' => is_low w && utf16_wf rest'
        | [] => false
        end
      else negb (is_low u) && utf16_wf rest
  end.

(** ** Properties of [reverseStr] *)

Lemma reverseStr_spec s : reverseStr s = rev s.
Proof. induction s as [|c s IH]; simpl; [done|]. by rewrite IH. Qed.

(** A code unit that is not a surrogate. *)
Definition plain_unit (u : Z) : bool := negb (is_high u || is_low u).

(** Code units that are not surrogates scan one by one. *)
Lemma utf16_wf_plain_app xs ys :
  forallb plain_unit xs = true -> utf16_wf (xs ++ ys) = utf16_wf ys.
Proof.
  induction xs as [|x xs IH]; [done|]. simpl. unfold plain_unit at 1.
  intros [Hx Hxs]%andb_true_iff. destruct (is_high x), (is_low x); try done.
  simpl. by apply IH.
Qed.

Lemma low_not_high u : is_low u = true -> is_high u = false.
Proof.
  unfold is_low, is_high. rewrite !andb_true_iff, !Z.leb_le. intros [? ?].
  apply andb_false_iff. right. apply Z.leb_gt. lia.
Qed.

(** C29. [reverseStr] reverses the sequence of UTF-16 code units. *)
Theorem reverseStr_rev s : reverseStr s = rev s.
Proof. apply reverseStr_spec. Qed.

(** C30. Reversal by code units breaks surrogate pairs: take the last
    surrogate pair [hi lo] of a string, so that only units that are not
    surrogates follow it (every well-formed string with a pair has this
    form); its reversal starts, after those units, with the low surrogate
    [lo], which no high surrogate precedes, so it is not well-formed
    UTF-16. "\u{1F600}" reverses to its two units in the wrong order. *)
Theorem reverseStr_breaks_surrogate_pairs p hi lo q :
  is_high hi = true -> is_low lo = true -> forallb plain_unit q = true ->
  utf16_wf (reverseStr (p ++ hi :: lo :: q)) = false.
Proof.
  intros Hhi Hlo Hq. rewrite reverseStr_spec, rev_app_distr. simpl.
  rewrite <- !app_assoc, utf16_wf_plain_app by (by rewrite forallb_rev). simpl.
  by rewrite low_not_high, Hlo.
Qed.

Lemma reverseStr_breaks_surrogate_pairs_witness :
  is_high 55357 = true /\ is_low 56832 = true /\ forallb plain_unit [] = true /\
  utf16_wf (reverseStr ([] ++ 55357%Z :: 56832%Z :: [])) = false.
Proof.
  split_and!; [reflexivity | reflexivity | reflexivity |]. apply reverseStr_breaks_surrogate_pairs; reflexivity.
Defined.

End ReverseStr.

Module Leaves.

(** ** [Object.values] *)

(** An array index: the canonical decimal string of an integer below
    2^32 - 1 (no sign, no leading zero). *)
Definition array_index (k : jsstr) : option N :=
  match k with
  | [] => None
  | u :: rest =>
      if forallb is_digit k && (negb (Z.eqb u 48) || bool_decide (rest = [])) then
        let n := digits_value k 0 in
        if (n <? 4294967295)%N then Some n else None
      else None
  end.

(** Index keys compare by their numeric value. *)
Definition idx_le (p q : N * jsval) : Prop := (p.1 <= q.1)%N.

#[export] Instance idx_le_dec : RelDecision idx_le.
Proof. intros p q. unfold idx_le. apply _. Defined.

(** The own values of an ordinary object, in property-key order. *)
Definition plain_values (ps : list (jsstr * jsval)) : list jsval :=
  let idx := omap (fun '(k, v) => (fun n => (n, v)) <$> array_index k) ps in
  let others := filter (fun p => array_index p.1 = None) ps in
  List.map snd (merge_sort idx_le idx) ++ List.map snd others.

(** [Object.values(obj)]: [ToObject] throws on [undefined] and [null]; a
    string gives its code units; other primitives, Symbols included, have
    no own values. *)
Definition object_values (h : heap) (v : jsval) : completion (list jsval) :=
  match v with
  | JUndefined | JNull => Abrupt TypeError
  | JBool _ | JNum _ | JNaN | JNegZero | JInf _ | JDec _ _ | JSym _ => Normal []
  | JStr s => Normal (List.map (fun u => JStr [u]) s)
  | JRef r =>
      match hobjs h !! r with
      | Some (OArray es) => Normal (omap id es)
      | Some (OPlain ps) => Normal (plain_values ps)
      | None => Abrupt TypeError
      end
  end.

(** ** [checkMatchingLeaves] (lines 66-77) *)

(** The loop from index [i]; the fuel bounds the remaining iterations. *)
Fixpoint leaves_loop (vals : list jsval) (firstVal : jsval) (i : nat) (fuel : nat) : bool :=
  match fuel with
  | O => true
  | S f =>
      if i <? length vals then
        if negb (strict_eq firstVal (nth i vals JUndefined)) then false
        else leaves_loop vals firstVal (S i) f
      else true
  end.

(** [Object.values(obj)[0]] is [undefined] on an empty list. *)
Definition checkMatchingLeaves (h : heap) (obj : jsval) : completion jsval :=
  match object_values h obj with
  | Abrupt e => Abrupt e
  | Normal vals => Normal (JBool (leaves_loop vals (nth 0 vals JUndefined) 1 (length vals)))
  end.

(** ** Properties of [checkMatchingLeaves] *)

Lemma leaves_loop_forallb vals firstVal i fuel :
  length vals - i <= fuel ->
  leaves_loop vals firstVal i fuel = forallb (strict_eq firstVal) (drop i vals).
Proof.
  revert i. induction fuel as [|f IH]; intros i Hf; simpl.
  - by rewrite drop_ge by lia.
  - destruct (Nat.ltb_spec i (length vals)) as [Hi|Hi]; [|by rewrite drop_ge].
    destruct (lookup_lt_is_Some_2 vals i Hi) as [x Hx].
    rewrite (drop_S _ x) by done. rewrite (nth_lookup_Some _ _ _ _ Hx).
    simpl. destruct (strict_eq firstVal _); simpl; [|done]. apply IH. lia.
Qed.

(** C27. The loop, with fuel at least the number of remaining indices,
    terminates with the same answer as a check of every later value
    against [firstVal]. *)
Theorem leaves_loop_spec vals firstVal i fuel :
  length vals - i <= fuel ->
  leaves_loop vals firstVal i fuel = forallb (strict_eq firstVal) (drop i vals).
Proof. apply leaves_loop_forallb. Qed.

(** All values strictly equal to one another. *)
Definition pairwise_strict (vals : list jsval) : Prop :=
  forall x y, x ∈ vals -> y ∈ vals -> strict_eq x y = true.

Lemma forallb_head_pairwise x rest :
  rest <> [] ->
  forallb (strict_eq x) rest = true <-> pairwise_strict (x :: rest).
Proof.
  intros Hne. rewrite forallb_forall. split.
  - intros Hall a b Ha Hb.
    destruct rest as [|y rest']; [done|].
    assert (strict_eq x x = true) as Hxx.
    { assert (strict_eq x y = true) as Hxy by (apply Hall; by left).
      by apply strict_eq_refl, (strict_eq_not_nan x y). }
    assert (forall z, z ∈ x :: y :: rest' -> strict_eq x z = true) as Hx.
    { intros z [->|Hz]%elem_of_cons; [done|]. apply Hall. by apply list_elem_of_In. }
    apply strict_eq_trans with x; [rewrite strict_eq_sym|]; auto.
  - intros Hp z Hz. apply Hp; [by left|]. right. by apply list_elem_of_In.
Qed.

Lemma checkMatchingLeaves_answer h obj vals :
  object_values h obj = Normal vals ->
  exists b, checkMatchingLeaves h obj = Normal (JBool b) /\
    (b = true <-> length vals <= 1 \/ pairwise_strict vals).
Proof.
  intros Hv. unfold checkMatchingLeaves. rewrite Hv. eexists. split; [done|].
  rewrite leaves_loop_forallb by lia.
  destruct vals as [|x [|y rest]]; simpl; [split; [lia|done]..|].
  rewrite (forallb_head_pairwise x (y :: rest)) by done.
  split; [by right|]. intros [?|?]; [lia|done].
Qed.

(** C25. [checkMatchingLeaves] answers [true] exactly when there is at
    most one value or all values are pairwise [===]; a single NaN gives
    [true], two NaN give [false]. *)
Theorem checkMatchingLeaves_spec h obj vals :
  object_values h obj = Normal vals ->
  exists b, checkMatchingLeaves h obj = Normal (JBool b) /\
    (b = true <-> length vals <= 1 \/ pairwise_strict vals).
Proof. apply checkMatchingLeaves_answer. Qed.

Lemma pairwise_strict_perm vals vals' :
  Permutation vals vals' -> pairwise_strict vals <-> pairwise_strict vals'.
Proof.
  intros Hp. unfold pairwise_strict.
  split; intros H x y Hx Hy; apply H; first [by rewrite Hp | by rewrite <- Hp].
Qed.

Lemma plain_values_perm ps : Permutation (plain_values ps) (List.map snd ps).
Proof.
  unfold plain_values. rewrite merge_sort_Permutation.
  induction ps as [|[k v] ps IH]; [done|]. simpl.
  destruct (array_index k) as [n|] eqn:Hk; simpl.
  - rewrite filter_cons_False by (simpl; congruence). simpl. by rewrite IH.
  - rewrite filter_cons_True by done. simpl. rewrite <- Permutation_middle. by rewrite IH.
Qed.

(** C26. The order of the property keys does not matter: on an ordinary
    object, [checkMatchingLeaves] answers as if the values were listed in
    insertion order. *)
Theorem checkMatchingLeaves_order_irrelevant h r ps :
  hobjs h !! r = Some (OPlain ps) ->
  checkMatchingLeaves h (JRef r) =
    Normal (JBool (forallb (strict_eq (nth 0 (List.map snd ps) JUndefined)) (drop 1 (List.map snd ps)))).
Proof.
  intros Hr.
  assert (object_values h (JRef r) = Normal (plain_values ps)) as Hv by (simpl; by rewrite Hr).
  destruct (checkMatchingLeaves_answer h (JRef r) _ Hv) as (b & -> & Hb).
  set (vals := List.map snd ps).
  pose proof (plain_values_perm ps) as Hp. fold vals in Hp.
  f_equal. f_equal. apply Bool.eq_iff_eq_true. rewrite Hb.
  rewrite (Permutation_length Hp), (pairwise_strict_perm _ _ Hp).
  destruct vals as [|x [|y rest]]; simpl; [split; [done|lia]..|].
  rewrite (forallb_head_pairwise x (y :: rest)) by done.
  split; [intros [?|?]; [lia|done] | by right].
Qed.

(** A heap for the witnesses: [{a: NaN, b: NaN}] at address 1 and
    [{x: 7, "1": 7}] at address 5. *)
Definition leaves_heap : heap :=
  mk_heap (list_to_map [
    (1, OPlain [(lit "a", JNaN); (lit "b", JNaN)]);
    (5, OPlain [(lit "x", JNum 7); (lit "1", JNum 7)])]) 6.

(** C28. The error paths: [checkMatchingLeaves] throws a [TypeError]
    exactly on [undefined] and [null] (from [Object.values], line 69; a
    reference to no object does not arise on a well-formed heap), and
    [reverseStr] throws exactly on the values that are not strings, which
    have no [substr]. *)
Theorem recursion_error_paths h v :
  (checkMatchingLeaves h v = Abrupt TypeError <->
     v = JUndefined \/ v = JNull \/ exists r, v = JRef r /\ hobjs h !! r = None) /\
  (ReverseStr.reverseStr_val v = Abrupt TypeError <-> forall s, v <> JStr s).
Proof.
  unfold checkMatchingLeaves. split.
  - destruct v as [| | | | | |r| | | |]; simpl; try (split; [intros [=]|naive_solver]);
      try naive_solver.
    destruct (hobjs h !! r) as [[]|] eqn:Hr; split; try naive_solver; by intros [=].
  - destruct v; simpl; split; try naive_solver; by intros [=].
Qed.

(** ** Witnesses *)

Lemma leaves_loop_spec_witness :
  leaves_loop [JNum 1; JNum 1; JNum 2] (JNum 1) 1 2 =
    forallb (strict_eq (JNum 1)) (drop 1 [JNum 1; JNum 1; JNum 2]).
Proof. apply (leaves_loop_spec [JNum 1; JNum 1; JNum 2] (JNum 1) 1 2). simpl. lia. Defined.

Lemma checkMatchingLeaves_spec_witness :
  object_values leaves_heap (JRef 1) = Normal [JNaN; JNaN] /\
  exists b, checkMatchingLeaves leaves_heap (JRef 1) = Normal (JBool b) /\
    (b = true <-> length [JNaN; JNaN] <= 1 \/ pairwise_strict [JNaN; JNaN]).
Proof.
  split; [vm_compute; reflexivity|].
  apply (checkMatchingLeaves_spec leaves_heap (JRef 1) [JNaN; JNaN]). vm_compute. reflexivity.
Defined.

Lemma checkMatchingLeaves_order_irrelevant_witness :
  hobjs leaves_heap !! 5 = Some (OPlain [(lit "x", JNum 7); (lit "1", JNum 7)]) /\
  checkMatchingLeaves leaves_heap (JRef 5) = Normal (JBool true).
Proof.
  split; [vm_compute; reflexivity|].
  rewrite (checkMatchingLeaves_order_irrelevant leaves_heap 5 [(lit "x", JNum 7); (lit "1", JNum 7)]);
    vm_compute; reflexivity.
Defined.

End Leaves.

Module Flatten.

(** ** [flatten] (lines 79-83): an empty body returns [undefined]. *)
Definition flatten (elements : jsval) : jsval := JUndefined.

End Flatten.
