(* ===== verification/Exports.v ===== *)
(** * The exports of the module (src/src/challenges.js, lines 85-93)

<<
module.exports = {
  each, map, limitFunctionCallCount, cacheFunction,
  reverseStr, checkMatchingLeaves, flatten,
};
>>
    The export object is a record of the seven functions, each at the
    type of its model: [each] and [map] run on the heap, the two factories
    return a [closure] with its private state, [reverseStr] and
    [checkMatchingLeaves] end with a completion, and [flatten] returns
    [undefined]. A client of the module sees the components only through
    this record. *)

From S2P Require Import Prelude JsValue JsMonad Iteration Limiter Memo Recursion.

Module ModuleExports.

Record exports := mk_exports {
  each : jsval -> callback -> js unit jsval;
  map : jsval -> callback -> js unit jsval;
  limitFunctionCallCount : callback -> jsval -> closure Z;
  cacheFunction : callback -> closure Memoizer.cache_obj;
  reverseStr : jsval -> completion jsval;
  checkMatchingLeaves : heap -> jsval -> completion jsval;
  flatten : jsval -> jsval
}.

Definition module_exports : exports := {|
  each := Iter.each;
  map := Iter.map;
  limitFunctionCallCount := CallLimiter.limitFunctionCallCount;
  cacheFunction := Memoizer.cacheFunction;
  reverseStr := ReverseStr.reverseStr_val;
  checkMatchingLeaves := Leaves.checkMatchingLeaves;
  flatten := Flatten.flatten
|}.

(** A function value passed as a callback: its parameter ([str] for
    [reverseStr], line 57) is bound to the first argument, [undefined]
    when there is none. *)
Definition as_callback (f : jsval -> completion jsval) : callback :=
  fun args h => (f (List.hd JUndefined args), h).

(** ** Composition *)

Lemma present_strings {B} (g : jsval -> B) ss :
  List.map (fun '(_, v) => g v) (Iter.present (List.map (fun s => Some (JStr s)) ss)) =
  List.map (fun s => g (JStr s)) ss.
Proof.
  transitivity (List.map g (List.map snd (Iter.present (List.map (fun s => Some (JStr s)) ss)))).
  { rewrite List.map_map. apply List.map_ext. by intros []. }
  rewrite Iter.present_values, <- (List.map_map JStr Some ss), omap_id_map_Some.
  apply List.map_map.
Qed.


(** C24. Composition of two exports: [map(arr, reverseStr)] on an array of
    strings calls [reverseStr] once per string, in order, and returns a
    new array holding each string with its code units in reverse order. *)
Theorem exports_map_reverseStr r ss h :
  heap_wf h -> hobjs h !! r = Some (OArray (List.map (fun s => Some (JStr s)) ss)) ->
  exists h', map module_exports (JRef r) (as_callback (reverseStr module_exports)) (tt, h) =
    (Normal (JRef (hnext h)), (tt, h'), List.map (fun s => [JStr s]) ss) /\
    hobjs h' !! hnext h = Some (OArray (List.map (fun s => Some (JStr (rev s))) ss)).
Proof.
  intros Hwf Hr. cbn [map reverseStr module_exports].
  set (f := fun args => match args with [JStr s] => JStr (ReverseStr.reverseStr s) | _ => JUndefined end).
  destruct (Iter.map_result_on (as_callback ReverseStr.reverseStr_val) f r _ h Hwf Hr) as (h' & Hrun & Hres).
  { intros k v h' Hk. rewrite list_lookup_fmap in Hk.
    destruct (ss !! k) as [s|]; simpl in Hk; simplify_eq. reflexivity. }
  exists h'. rewrite Hrun, Hres, (present_strings (fun v => [v])).
  split; [done|]. rewrite (present_strings (fun v => Some (f [v]))).
  apply (f_equal (fun l => Some (OArray l))), List.map_ext. intros s. simpl. by rewrite ReverseStr.reverseStr_spec.
Qed.

(** The array [['ab', 'cd']] at address 0. *)
Definition strings_heap : heap :=
  (alloc (OArray [Some (JStr (lit "ab")); Some (JStr (lit "cd"))]) empty_heap).2.

Lemma exports_map_reverseStr_witness :
  exists h', map module_exports (JRef 0) (as_callback (reverseStr module_exports)) (tt, strings_heap) =
    (Normal (JRef (hnext strings_heap)), (tt, h'), List.map (fun s => [JStr s]) [lit "ab"; lit "cd"]) /\
    hobjs h' !! hnext strings_heap =
      Some (OArray (List.map (fun s => Some (JStr (rev s))) [lit "ab"; lit "cd"])).
Proof.
  apply exports_map_reverseStr; [|reflexivity].
  apply alloc_wf; [apply empty_heap_wf|]. repeat constructor; by intros r.
Defined.

End ModuleExports.
